(** * IndySdkPoolService: pool registry, DID resolution and ledger writes

    A shallow embedding of
    [packages/indy-sdk/src/ledger/IndySdkPoolService.ts].

    The service is asynchronous TypeScript.  Every [await] is a step of a
    state-and-exception monad over a [World] that holds
    - the state of everything outside the service (ledgers, wallet, clock),
      as an abstract [Env] advanced by the collaborators,
    - the memoised [authorAgreement] field of every pool object,
    - the cache store,
    - a chronological trace of the collaborator calls the service made.

    Logging is not modelled. *)

From Stdlib Require Import ZArith.
From stdpp Require Import base option list strings gmap pretty sorting.

Local Open Scope string_scope.
Local Open Scope list_scope.
Local Open Scope stdpp_scope.

(** ** Errors *)

(** The JavaScript values the service throws or sees thrown. *)
#[warnings="-register-all"]
Inductive Error : Type :=
  | IndyError (indyName : string) (message : string)
  | IndySdkError (cause : Error)
  | IndySdkPoolError (message : string) (cause : option Error)
  | IndySdkPoolNotFoundError (message : string)
  | IndySdkPoolNotConfiguredError (message : string)
  | OtherError (name : string) (message : string).

Inductive Result (A : Type) : Type :=
  | Ok (a : A)
  | Throw (e : Error).
Arguments Ok {A} a.
Arguments Throw {A} e.

(** Modelled from the spec: [isIndyError] of [../error], which is not among
    the sources.  It recognises the failure signal of the external ledger
    client (spec, sections 6 and 7), optionally with a given error name. *)
Definition isIndyError (error : Error) (errorName : option string) : bool :=
  match error with
  | IndyError n _ =>
      match errorName with
      | None => true
      | Some wanted => bool_decide (n = wanted)
      end
  | _ => false
  end.

(** [e instanceof IndySdkPoolNotFoundError] *)
Definition instanceof_IndySdkPoolNotFoundError (e : Error) : bool :=
  match e with
  | IndySdkPoolNotFoundError _ => true
  | _ => false
  end.

(** [isIndyError(error) ? new IndySdkError(error) : error], the body of the
    [catch] clauses. *)
Definition translateError (error : Error) : Error :=
  if isIndyError error None then IndySdkError error else error.

(** ** Data model *)

(** Requests and write replies are opaque to the service. *)
Definition LedgerRequest := string.
Definition LedgerWriteReplyResponse := string.

(** [GetNymResponse] of indy-sdk. *)
Record GetNymResponse := {
  nym_did : string;
  nym_verkey : string;
  nym_role : string;
}.

(** [AcceptanceMechanisms].  [aml] is a JavaScript object used as a map from
    mechanism name to description: its own properties, in property order. *)
Record AcceptanceMechanisms := {
  aml : list (string * string);
  amlContext : string;
  aml_version : string;
}.

(** [AuthorAgreement].  The type declares [acceptanceMechanisms] as always
    present; the value stored is the payload of a reply, cast without a
    check, so [null] is representable. *)
Record AuthorAgreement := {
  digest : string;
  version : string;
  text : string;
  ratification_ts : Z;
  acceptanceMechanisms : option AcceptanceMechanisms;
}.

(** [result.data] of a read reply: the properties of the payload that the
    service reads through its casts [as AuthorAgreement] and
    [as AcceptanceMechanisms]. *)
Record ReplyData := {
  data_digest : string;
  data_version : string;
  data_text : string;
  data_ratification_ts : Z;
  data_aml : list (string * string);
  data_amlContext : string;
}.

(** [LedgerReadReplyResponse]: [result.data] may be [null]. *)
Record LedgerReadReplyResponse := {
  reply_op : string;
  result_data : option ReplyData;
}.

(** [taaResponse.result.data as AuthorAgreement], spread together with the
    acceptance mechanisms, as in
    [{ ...authorAgreement, acceptanceMechanisms }]. *)
Definition spreadAuthorAgreement (authorAgreement : ReplyData)
    (mechanisms : option AcceptanceMechanisms) : AuthorAgreement :=
  {| digest := data_digest authorAgreement;
     version := data_version authorAgreement;
     text := data_text authorAgreement;
     ratification_ts := data_ratification_ts authorAgreement;
     acceptanceMechanisms := mechanisms |}.

(** [data as AcceptanceMechanisms] for a payload that is not [null]. *)
Definition asAcceptanceMechanisms (data : ReplyData) : AcceptanceMechanisms :=
  {| aml := data_aml data;
     amlContext := data_amlContext data;
     aml_version := data_version data |}.

(** [pool.config.transactionAuthorAgreement] *)
Record TaaConfig := {
  taa_version : string;
  taa_acceptanceMechanism : string;
}.

(** [IndySdkPoolConfig] *)
Record IndySdkPoolConfig := {
  config_id : string;
  isProduction : bool;
  indyNamespace : option string;
  transactionAuthorAgreement : option TaaConfig;
}.

(** An [IndySdkPool] object: its identity [pool_ref] (two pool objects may
    carry equal configurations) and its configuration.  The mutable field
    [authorAgreement] lives in the [World], under [pool_ref]. *)
Record IndySdkPool := {
  pool_ref : nat;
  config : IndySdkPoolConfig;
}.

(** The getters [pool.id] and [pool.didIndyNamespace]. *)
Definition pool_id (pool : IndySdkPool) : string := config_id (config pool).
Definition didIndyNamespace (pool : IndySdkPool) : option string :=
  indyNamespace (config pool).

(** [PublicDidRequest] *)
Record PublicDidRequest := {
  pdr_did : GetNymResponse;
  pdr_pool : IndySdkPool;
  pdr_response : LedgerReadReplyResponse;
}.

(** The object [{ pool, did }] that [getPoolForDid] returns. *)
Record PoolAndDid := {
  res_pool : IndySdkPool;
  res_did : GetNymResponse;
}.

(** [PromiseSettledResult] and its two cases, as [allSettled] yields them. *)
Record PromiseFulfilledResult (A : Type) := { value : A }.
Record PromiseRejectedResult := { reason : Error }.
Arguments value {A} _.
Arguments Build_PromiseFulfilledResult {A} _.

Inductive PromiseSettledResult (A : Type) : Type :=
  | Fulfilled (r : PromiseFulfilledResult A)
  | Rejected (r : PromiseRejectedResult).
Arguments Fulfilled {A} r.
Arguments Rejected {A} r.

(** [CachedDidResponse] *)
Record CachedDidResponse := {
  nymResponse : GetNymResponse;
  poolId : string;
}.

(** The service object: [this.pools]. *)
Record IndySdkPoolService := {
  pools : list IndySdkPool;
}.

Global Instance GetNymResponse_eq_dec : EqDecision GetNymResponse.
Proof. solve_decision. Defined.
Global Instance TaaConfig_eq_dec : EqDecision TaaConfig.
Proof. solve_decision. Defined.
Global Instance IndySdkPoolConfig_eq_dec : EqDecision IndySdkPoolConfig.
Proof. solve_decision. Defined.
Global Instance IndySdkPool_eq_dec : EqDecision IndySdkPool.
Proof. solve_decision. Defined.

(** ** JavaScript operators *)

(** The own and inherited property names of [Object.prototype]; every object
    parsed from JSON inherits them. *)
Definition Object_prototype_properties : list string :=
  [ "constructor"; "hasOwnProperty"; "isPrototypeOf"; "propertyIsEnumerable";
    "toLocaleString"; "toString"; "valueOf"; "__proto__";
    "__defineGetter__"; "__defineSetter__";
    "__lookupGetter__"; "__lookupSetter__" ].

(** [Object.keys(obj)] *)
Definition Object_keys (obj : list (string * string)) : list string := obj.*1.

(** [key in obj]: an own property, or one found on the prototype chain. *)
Definition js_in (key : string) (obj : list (string * string)) : bool :=
  bool_decide (key ∈ Object_keys obj)
  || bool_decide (key ∈ Object_prototype_properties).

(** [!s] for an optional string: [undefined] and the empty string are falsy. *)
Definition js_not_string (s : option string) : bool :=
  match s with
  | None => true
  | Some v => bool_decide (v = "")
  end.

(** ** Collaborators *)

(** Calls the service makes on its collaborators, as recorded in the trace. *)
Inductive Event : Type :=
  | EvConnect (pool : IndySdkPool)
  | EvSubmitRead (pool : IndySdkPool) (request : LedgerRequest)
  | EvSubmitWrite (pool : IndySdkPool) (request : LedgerRequest)
  | EvSignRequest (walletHandle : nat) (did : string) (request : LedgerRequest)
  | EvAppendTaa (request : LedgerRequest) (text version digest mechanism : string)
      (time : Z)
  | EvCacheGet (key : string)
  | EvCacheSet (key : string) (value : CachedDidResponse).

(** What the service needs from outside: the pool objects' network
    operations, the indy-sdk binding, the wallet of the agent context, the
    clock and [JSON.stringify].  Operations that reach the network or the
    wallet advance the environment; each may fail. *)
Class Collaborators := {
  Env : Type;
  Wallet : Type;
  (* IndySdkPool *)
  pool_connect : IndySdkPool → Env → Env * Result nat;
  pool_submitReadRequest :
    IndySdkPool → LedgerRequest → Env → Env * Result LedgerReadReplyResponse;
  pool_submitWriteRequest :
    IndySdkPool → LedgerRequest → Env → Env * Result LedgerWriteReplyResponse;
  (* indySdk *)
  indySdk_buildGetNymRequest : string → Result LedgerRequest;
  indySdk_parseGetNymResponse : LedgerReadReplyResponse → Result GetNymResponse;
  indySdk_buildGetTxnAuthorAgreementRequest : Result LedgerRequest;
  indySdk_buildGetAcceptanceMechanismsRequest : Result LedgerRequest;
  indySdk_appendTxnAuthorAgreementAcceptanceToRequest :
    LedgerRequest → string → string → string → string → Z → Result LedgerRequest;
  indySdk_signRequest :
    nat → string → LedgerRequest → Env → Env * Result LedgerRequest;
  (* agentContext.wallet *)
  assertIndySdkWallet : Wallet → Result unit;
  wallet_handle : Wallet → Result nat;
  (* ../utils/did *)
  isSelfCertifiedDid : string → string → bool;
  (* new Date().getTime(), in milliseconds *)
  Date_getTime : Env → Z;
  (* JSON.stringify at the three types it is used at *)
  JSON_stringify_string : string → string;
  JSON_stringify_strings : list string → string;
  JSON_stringify_AuthorAgreement : AuthorAgreement → string;
}.

(** [AgentContext]: the wallet; the cache it resolves is in the [World]. *)
Record AgentContext `{Collaborators} := {
  wallet : Wallet;
}.

(** ** The world and the monad of asynchronous steps *)

Section World.
Context `{Collaborators}.

(** [authorAgreementOf !! r] is the field [authorAgreement] of the pool
    object [r]: [None] is [undefined] (not yet fetched), [Some None] is
    [null] (fetched, the ledger has no agreement). *)
Record World := {
  env : Env;
  authorAgreementOf : gmap nat (option AuthorAgreement);
  cache : gmap string CachedDidResponse;
  trace : list Event;
}.

Definition M (A : Type) : Type := World → World * Result A.

Definition ret {A} (a : A) : M A := λ w, (w, Ok a).

Definition throw {A} (e : Error) : M A := λ w, (w, Throw e).

Definition bind {A B} (m : M A) (k : A → M B) : M B :=
  λ w, match m w with
       | (w', Ok a) => k a w'
       | (w', Throw e) => (w', Throw e)
       end.

(** [try { m } catch (error) { handler error }] *)
Definition try_catch {A} (m : M A) (handler : Error → M A) : M A :=
  λ w, match m w with
       | (w', Ok a) => (w', Ok a)
       | (w', Throw e) => handler e w'
       end.

(** A value that is already a result: a synchronous call that may throw. *)
Definition lift {A} (r : Result A) : M A := λ w, (w, r).

Definition emit (ev : Event) : M unit :=
  λ w, ({| env := env w; authorAgreementOf := authorAgreementOf w;
           cache := cache w; trace := trace w ++ [ev] |}, Ok tt).

(** A collaborator call that advances the environment. *)
Definition call {A} (f : Env → Env * Result A) : M A :=
  λ w, let '(e', r) := f (env w) in
       ({| env := e'; authorAgreementOf := authorAgreementOf w;
           cache := cache w; trace := trace w |}, r).

Definition get_env : M Env := λ w, (w, Ok (env w)).

(** [pool.authorAgreement] and [pool.authorAgreement = v] *)
Definition read_authorAgreement (pool : IndySdkPool)
    : M (option (option AuthorAgreement)) :=
  λ w, (w, Ok (authorAgreementOf w !! pool_ref pool)).

Definition write_authorAgreement (pool : IndySdkPool)
    (v : option AuthorAgreement) : M unit :=
  λ w, ({| env := env w;
           authorAgreementOf := <[pool_ref pool := v]> (authorAgreementOf w);
           cache := cache w; trace := trace w |}, Ok tt).

(** [cache.get(agentContext, key)] and [cache.set(agentContext, key, value)] *)
Definition cache_get (key : string) : M (option CachedDidResponse) :=
  λ w, ({| env := env w; authorAgreementOf := authorAgreementOf w;
           cache := cache w; trace := trace w ++ [EvCacheGet key] |},
        Ok (cache w !! key)).

Definition cache_set (key : string) (value : CachedDidResponse) : M unit :=
  λ w, ({| env := env w; authorAgreementOf := authorAgreementOf w;
           cache := <[key := value]> (cache w);
           trace := trace w ++ [EvCacheSet key value] |}, Ok tt).
End World.

(** The monad operations, for the notations [x ← m; k] and [m;; k]. *)
Global Instance M_ret `{Collaborators} : MRet M := λ A, ret.
Global Instance M_bind `{Collaborators} : MBind M := λ A B k m, bind m k.

(** ** The service *)

Section Service.
Context `{Collaborators}.

Definition notConfiguredMessage : string :=
  "No indy ledgers configured. Provide at least one pool configuration in the 'indyLedgers' agent configuration".

(** [pool.connect()] *)
Definition connect (pool : IndySdkPool) : M nat :=
  emit (EvConnect pool);;
  call (pool_connect pool).

(** The [for ... of] loop of [connectToPools]. *)
Fixpoint connectToPools_loop (ps : list IndySdkPool) (handleArray : list nat)
    : M (list nat) :=
  match ps with
  | [] => ret handleArray
  | pool :: rest =>
      poolHandle ← connect pool;
      connectToPools_loop rest (handleArray ++ [poolHandle])
  end.

Definition connectToPools (this : IndySdkPoolService) : M (list nat) :=
  connectToPools_loop (pools this) [].

(** [getPoolForNamespace] is synchronous and touches nothing. *)
Definition getPoolForNamespace (this : IndySdkPoolService)
    (indyNamespace : option string) : Result IndySdkPool :=
  match pools this with
  | [] => Throw (IndySdkPoolNotConfiguredError notConfiguredMessage)
  | first :: _ =>
      if js_not_string indyNamespace then Ok first
      else
        match List.find (λ pool, bool_decide (didIndyNamespace pool = indyNamespace))
                (pools this) with
        | None =>
            Throw (IndySdkPoolNotFoundError
              ("No ledgers found for IndyNamespace '" +:+ default "" indyNamespace +:+ "'."))
        | Some pool => Ok pool
        end
  end.

(** [pool.submitReadRequest(request)] and [pool.submitWriteRequest(request)] *)
Definition pool_read (pool : IndySdkPool) (request : LedgerRequest)
    : M LedgerReadReplyResponse :=
  emit (EvSubmitRead pool request);;
  call (pool_submitReadRequest pool request).

Definition pool_write (pool : IndySdkPool) (request : LedgerRequest)
    : M LedgerWriteReplyResponse :=
  emit (EvSubmitWrite pool request);;
  call (pool_submitWriteRequest pool request).

(** What reading a property of [undefined] or [null] throws; one message
    stands for all of them. *)
Definition TypeError : Error :=
  OtherError "TypeError" "Cannot read properties of undefined".

Definition getDidFromPool (did : string) (pool : IndySdkPool)
    : M PublicDidRequest :=
  try_catch
    (request ← lift (indySdk_buildGetNymRequest did);
     response ← pool_read pool request;
     result ← lift (indySdk_parseGetNymResponse response);
     ret {| pdr_did := result; pdr_pool := pool; pdr_response := response |})
    (λ error,
       if isIndyError error (Some "LedgerNotFound") then
         throw (IndySdkPoolNotFoundError
                  ("Did '" +:+ did +:+ "' not found on ledger " +:+ pool_id pool))
       else throw (translateError error)).

(** Modelled from the spec: [allSettled] of [../utils/promises], which is
    not among the sources.  All queries settle, none of them aborts the
    others, and the outcomes are then partitioned into successful and failed
    ones (spec, section 4.2, steps 3 and 4); outcomes keep the order of the
    promises. *)
Fixpoint allSettled {A} (promises : list (M A))
    : M (list (PromiseSettledResult A)) :=
  match promises with
  | [] => ret []
  | promise :: rest =>
      r ← try_catch
            (v ← promise; ret (Fulfilled {| value := v |}))
            (λ e, ret (Rejected {| reason := e |}));
      rs ← allSettled rest;
      ret (r :: rs)
  end.

(** Modelled from the spec: [onlyFulfilled] of [../utils/promises], the
    successful outcomes, in order. *)
Fixpoint onlyFulfilled {A} (entries : list (PromiseSettledResult A))
    : list (PromiseFulfilledResult A) :=
  match entries with
  | [] => []
  | Fulfilled r :: rest => r :: onlyFulfilled rest
  | Rejected _ :: rest => onlyFulfilled rest
  end.

(** Modelled from the spec: [onlyRejected] of [../utils/promises], the
    failed outcomes, in order. *)
Fixpoint onlyRejected {A} (entries : list (PromiseSettledResult A))
    : list PromiseRejectedResult :=
  match entries with
  | [] => []
  | Fulfilled _ :: rest => onlyRejected rest
  | Rejected r :: rest => r :: onlyRejected rest
  end.

Definition getSettledDidResponsesFromPools (did : string)
    (pools : list IndySdkPool)
    : M (list (PromiseFulfilledResult PublicDidRequest)
         * list PromiseRejectedResult) :=
  didResponses ← allSettled (map (λ pool, getDidFromPool did pool) pools);
  let successful := onlyFulfilled didResponses in
  let rejected := onlyRejected didResponses in
  ret (successful, rejected).

Definition cacheKey (did : string) : string := "IndySdkPoolService:" +:+ did.

(** The preference among the successful responses, lines 107 to 125. *)
Definition choose (successful : list (PromiseFulfilledResult PublicDidRequest))
    : Result PublicDidRequest :=
  let value0 :=
    value <$> List.find
      (λ response,
         isSelfCertifiedDid (nym_did (pdr_did (value response)))
                            (nym_verkey (pdr_did (value response))))
      successful in
  match value0 with
  | Some v => Ok v
  | None =>
      let production :=
        List.filter (λ s, isProduction (config (pdr_pool (value s)))) successful in
      let nonProduction :=
        List.filter (λ s, negb (isProduction (config (pdr_pool (value s)))))
                    successful in
      let productionOrNonProduction :=
        if (1 <=? length production)%nat then production else nonProduction in
      match productionOrNonProduction with
      | first :: _ => Ok (value first)
      | [] => Throw TypeError
      end
  end.

(** The failure when no pool answered, lines 91 to 105. *)
Definition noneSuccessful (this : IndySdkPoolService) (did : string)
    (rejected : list PromiseRejectedResult) : Error :=
  let allNotFound :=
    forallb (λ e, instanceof_IndySdkPoolNotFoundError (reason e)) rejected in
  let rejectedOtherThanNotFound :=
    List.filter (λ e, negb (instanceof_IndySdkPoolNotFoundError (reason e)))
                rejected in
  if allNotFound then
    IndySdkPoolNotFoundError
      ("Did '" +:+ did +:+ "' not found on any of the ledgers (total "
       +:+ pretty (length (pools this)) +:+ ").")
  else
    match rejectedOtherThanNotFound with
    | first :: _ =>
        IndySdkPoolError
          ("Unknown error retrieving did '" +:+ did +:+ "' from '"
           +:+ pretty (length rejectedOtherThanNotFound) +:+ "' of '"
           +:+ pretty (length (pools this)) +:+ "' ledgers")
          (Some (reason first))
    | [] => TypeError
    end.

Definition getPoolForDid (this : IndySdkPoolService)
    (agentContext : AgentContext) (did : string) : M PoolAndDid :=
  let pools := pools this in
  if (length pools =? 0)%nat then
    throw (IndySdkPoolNotConfiguredError notConfiguredMessage)
  else
    cachedNymResponse ← cache_get (cacheKey did);
    let pool :=
      List.find
        (λ pool, bool_decide (Some (pool_id pool) = poolId <$> cachedNymResponse))
        pools in
    match cachedNymResponse, pool with
    | Some cached, Some pool =>
        ret {| res_did := nymResponse cached; res_pool := pool |}
    | _, _ =>
        '(successful, rejected) ← getSettledDidResponsesFromPools did pools;
        if (length successful =? 0)%nat then
          throw (noneSuccessful this did rejected)
        else
          value ← lift (choose successful);
          cache_set (cacheKey did)
            {| nymResponse := pdr_did value; poolId := pool_id (pdr_pool value) |};;
          ret {| res_pool := pdr_pool value; res_did := pdr_did value |}
    end.

Definition submitReadRequest (pool : IndySdkPool) (request : LedgerRequest)
    : M LedgerReadReplyResponse :=
  try_catch (pool_read pool request) (λ error, throw (translateError error)).

Definition getTransactionAuthorAgreement (pool : IndySdkPool)
    : M (option AuthorAgreement) :=
  try_catch
    (memo ← read_authorAgreement pool;
     match memo with
     | Some authorAgreement => ret authorAgreement
     | None =>
         taaRequest ← lift indySdk_buildGetTxnAuthorAgreementRequest;
         taaResponse ← submitReadRequest pool taaRequest;
         acceptanceMechanismRequest ←
           lift indySdk_buildGetAcceptanceMechanismsRequest;
         acceptanceMechanismResponse ←
           submitReadRequest pool acceptanceMechanismRequest;
         match result_data taaResponse with
         | None =>
             write_authorAgreement pool None;;
             ret None
         | Some authorAgreement =>
             let acceptanceMechanisms :=
               asAcceptanceMechanisms <$> result_data acceptanceMechanismResponse in
             let snapshot :=
               spreadAuthorAgreement authorAgreement acceptanceMechanisms in
             write_authorAgreement pool (Some snapshot);;
             ret (Some snapshot)
         end
     end)
    (λ error, throw (translateError error)).

Definition specifyTaaMessage (authorAgreement : AuthorAgreement) : string :=
  "Please, specify a transaction author agreement with version and acceptance mechanism. "
  +:+ JSON_stringify_AuthorAgreement authorAgreement.

Definition newline : string := String (Ascii.ascii_of_nat 10) "".

Definition mismatchMessage (taa : TaaConfig) (authorAgreement : AuthorAgreement)
    (mechanisms : AcceptanceMechanisms) : string :=
  "Unable to satisfy matching TAA with mechanism "
  +:+ JSON_stringify_string (taa_acceptanceMechanism taa)
  +:+ " and version " +:+ JSON_stringify_string (taa_version taa)
  +:+ " in pool." +:+ newline +:+ " Found "
  +:+ JSON_stringify_strings (Object_keys (aml mechanisms))
  +:+ " and version " +:+ version authorAgreement +:+ " in pool.".

(** [Math.floor(new Date().getTime() / 1000)] *)
Definition currentTimeSeconds : M Z :=
  e ← get_env; ret (Date_getTime e `div` 1000)%Z.

Definition appendTaa (pool : IndySdkPool) (request : LedgerRequest)
    : M LedgerRequest :=
  try_catch
    (authorAgreement ← getTransactionAuthorAgreement pool;
     let taa := transactionAuthorAgreement (config pool) in
     match authorAgreement with
     | None => ret request
     | Some authorAgreement =>
         match taa with
         | None => throw (IndySdkPoolError (specifyTaaMessage authorAgreement) None)
         | Some taa =>
             (* both the test and the message read
                [authorAgreement.acceptanceMechanisms.aml] *)
             match acceptanceMechanisms authorAgreement with
             | None => throw TypeError
             | Some mechanisms =>
                 if negb (bool_decide (version authorAgreement = taa_version taa))
                    || negb (js_in (taa_acceptanceMechanism taa) (aml mechanisms))
                 then
                   throw (IndySdkPoolError
                            (mismatchMessage taa authorAgreement mechanisms) None)
                 else
                   time ← currentTimeSeconds;
                   emit (EvAppendTaa request (text authorAgreement) (taa_version taa)
                           (digest authorAgreement) (taa_acceptanceMechanism taa) time);;
                   lift (indySdk_appendTxnAuthorAgreementAcceptanceToRequest
                           request (text authorAgreement) (taa_version taa)
                           (digest authorAgreement) (taa_acceptanceMechanism taa) time)
             end
         end
     end)
    (λ error, throw (translateError error)).

(** The promise of [indySdk.signRequest] is returned without [await], so
    the [catch] clause only sees what reading [wallet.handle] throws. *)
Definition signRequest (agentContext : AgentContext) (did : string)
    (request : LedgerRequest) : M LedgerRequest :=
  lift (assertIndySdkWallet (wallet agentContext));;
  handle ← try_catch (lift (wallet_handle (wallet agentContext)))
                     (λ error, throw (translateError error));
  emit (EvSignRequest handle did request);;
  call (indySdk_signRequest handle did request).

Definition submitWriteRequest (agentContext : AgentContext) (pool : IndySdkPool)
    (request : LedgerRequest) (signDid : string) : M LedgerWriteReplyResponse :=
  try_catch
    (requestWithTaa ← appendTaa pool request;
     signedRequestWithTaa ← signRequest agentContext signDid requestWithTaa;
     response ← pool_write pool signedRequestWithTaa;
     ret response)
    (λ error, throw (translateError error)).
End Service.

(** ** The trace, by kind of call *)

(** The pools that were asked to connect, in order. *)
Definition connectAttempts (tr : list Event) : list IndySdkPool :=
  omap (λ ev, match ev with EvConnect p => Some p | _ => None end) tr.

(** The read queries sent to pools: the network queries of resolution and of
    the agreement fetch. *)
Definition readQueries (tr : list Event) : list (IndySdkPool * LedgerRequest) :=
  omap (λ ev, match ev with EvSubmitRead p r => Some (p, r) | _ => None end) tr.

(** The requests handed to the signing collaborator. *)
Definition signedRequests (tr : list Event) : list LedgerRequest :=
  omap (λ ev, match ev with EvSignRequest _ _ r => Some r | _ => None end) tr.

(** The requests submitted for writing. *)
Definition writeSubmissions (tr : list Event) : list (IndySdkPool * LedgerRequest) :=
  omap (λ ev, match ev with EvSubmitWrite p r => Some (p, r) | _ => None end) tr.

(** The requests an acceptance was appended to. *)
Definition taaAppends (tr : list Event) : list LedgerRequest :=
  omap (λ ev, match ev with EvAppendTaa r _ _ _ _ _ => Some r | _ => None end) tr.

(** The cache writes. *)
Definition cacheWrites (tr : list Event) : list (string * CachedDidResponse) :=
  omap (λ ev, match ev with EvCacheSet k v => Some (k, v) | _ => None end) tr.

(** ** Vocabulary of the statements *)

Section Vocabulary.
Context `{Collaborators}.

(** [isSelfCertifiedDid(response.value.did.did, response.value.did.verkey)] *)
Definition selfCertified (v : PublicDidRequest) : bool :=
  isSelfCertifiedDid (nym_did (pdr_did v)) (nym_verkey (pdr_did v)).

(** [s.value.pool.config.isProduction] *)
Definition fromProduction (v : PublicDidRequest) : bool :=
  isProduction (config (pdr_pool v)).

(** The outcomes of querying the pools [ps] from the world [w], one per
    pool and in the order of [ps]. *)
Definition didResponses (did : string) (ps : list IndySdkPool) (w : World)
    : list (PromiseSettledResult PublicDidRequest) :=
  match (allSettled (map (λ pool, getDidFromPool did pool) ps) w).2 with
  | Ok rs => rs
  | Throw _ => []
  end.

(** The outcomes of the queries that [getPoolForDid] issues from [w] once
    the cache did not answer: position [i] is the outcome of pool [i] of
    the registry. *)
Definition queryOutcomes (this : IndySdkPoolService) (did : string) (w : World)
    : list (PromiseSettledResult PublicDidRequest) :=
  didResponses did (pools this) (cache_get (cacheKey did) w).1.

(** The world once those queries have settled. *)
Definition afterQueries (this : IndySdkPoolService) (did : string) (w : World)
    : World :=
  (allSettled (map (λ pool, getDidFromPool did pool) (pools this))
              (cache_get (cacheKey did) w).1).1.

(** The cache answers for [did]: it holds an entry whose [poolId] is the
    id of a configured pool; the pool is the first one with that id. *)
Definition cacheHit (this : IndySdkPoolService) (did : string) (w : World)
    : option PoolAndDid :=
  match cache w !! cacheKey did with
  | Some cached =>
      match List.find (λ pool, bool_decide (pool_id pool = poolId cached))
              (pools this) with
      | Some pool => Some {| res_pool := pool; res_did := nymResponse cached |}
      | None => None
      end
  | None => None
  end.

(** [v] is the outcome at position [i], it is a success that satisfies
    [P], and no success before it does. *)
Definition firstFulfilled (P : PublicDidRequest → bool)
    (rs : list (PromiseSettledResult PublicDidRequest)) (i : nat)
    (v : PublicDidRequest) : Prop :=
  rs !! i = Some (Fulfilled {| value := v |}) ∧
  P v = true ∧
  ∀ j v', j < i → rs !! j = Some (Fulfilled {| value := v' |}) → P v' = false.

(** No success satisfies [P]. *)
Definition noFulfilled (P : PublicDidRequest → bool)
    (rs : list (PromiseSettledResult PublicDidRequest)) : Prop :=
  ∀ j v', rs !! j = Some (Fulfilled {| value := v' |}) → P v' = false.

(** Every query failed. *)
Definition allRejected (rs : list (PromiseSettledResult PublicDidRequest)) : Prop :=
  ∀ i o, rs !! i = Some o → ∃ e, o = Rejected {| reason := e |}.

Definition didNotFoundMessage (did : string) (total : nat) : string :=
  "Did '" +:+ did +:+ "' not found on any of the ledgers (total "
  +:+ pretty total +:+ ").".

(** The read events of one round of queries. *)
Definition queryEvents (this : IndySdkPoolService) (did : string) : list Event :=
  match indySdk_buildGetNymRequest did with
  | Ok request => map (λ pool, EvSubmitRead pool request) (pools this)
  | Throw _ => []
  end.

(** The cache entry that records a result. *)
Definition cacheEntry (res : PoolAndDid) : CachedDidResponse :=
  {| nymResponse := res_did res; poolId := pool_id (res_pool res) |}.

(** The world without the cache entry of [did]. *)
Definition forget (did : string) (w : World) : World :=
  {| env := env w; authorAgreementOf := authorAgreementOf w;
     cache := delete (cacheKey did) (cache w); trace := trace w |}.

(** The snapshot built from the two replies. *)
Definition snapshotOf (taaResponse acceptanceMechanismResponse : LedgerReadReplyResponse)
    : option AuthorAgreement :=
  match result_data taaResponse with
  | None => None
  | Some authorAgreement =>
      Some (spreadAuthorAgreement authorAgreement
              (asAcceptanceMechanisms <$> result_data acceptanceMechanismResponse))
  end.

Definition withEvents (w : World) (e : Env) (evs : list Event) : World :=
  {| env := e; authorAgreementOf := authorAgreementOf w; cache := cache w;
     trace := trace w ++ evs |}.

Definition translated {A} (r : Result A) : Result A :=
  match r with
  | Ok a => Ok a
  | Throw e => Throw (translateError e)
  end.

(** The test of lines 230 to 233. *)
Definition taaMismatch (taa : TaaConfig) (authorAgreement : AuthorAgreement)
    (mechanisms : AcceptanceMechanisms) : bool :=
  negb (bool_decide (version authorAgreement = taa_version taa))
  || negb (js_in (taa_acceptanceMechanism taa) (aml mechanisms)).

(** Signing and submitting [requestWithTaa] from the world [w1]. *)
Definition signAndSubmit (agentContext : AgentContext) (pool : IndySdkPool)
    (requestWithTaa : LedgerRequest) (signDid : string) (w1 : World)
    : World * Result LedgerWriteReplyResponse :=
  match assertIndySdkWallet (wallet agentContext) with
  | Throw e => (w1, Throw (translateError e))
  | Ok _ =>
      match wallet_handle (wallet agentContext) with
      | Throw e => (w1, Throw (translateError e))
      | Ok handle =>
          let '(e2, r2) := indySdk_signRequest handle signDid requestWithTaa (env w1) in
          match r2 with
          | Throw e =>
              (withEvents w1 e2 [EvSignRequest handle signDid requestWithTaa],
               Throw (translateError e))
          | Ok signed =>
              let '(e3, r3) := pool_submitWriteRequest pool signed e2 in
              (withEvents w1 e3 [EvSignRequest handle signDid requestWithTaa;
                                 EvSubmitWrite pool signed],
               translated r3)
          end
      end
  end.

Record WriteCall := {
  call_context : AgentContext;
  call_pool : IndySdkPool;
  call_request : LedgerRequest;
  call_signDid : string;
}.

(** The world after a series of writes, whatever each of them returned. *)
Fixpoint submitWrites (calls : list WriteCall) (w : World) : World :=
  match calls with
  | [] => w
  | c :: rest =>
      submitWrites rest
        (submitWriteRequest (call_context c) (call_pool c) (call_request c)
           (call_signDid c) w).1
  end.

(** Connecting the pools [ps] one after the other, starting in the
    environment [e]: every connection succeeds, [handles] are the handles
    in the order of [ps], and [e'] is the environment after the last one. *)
Inductive connectsInOrder : list IndySdkPool → Env → list nat → Env → Prop :=
  | connectsInOrder_nil e : connectsInOrder [] e [] e
  | connectsInOrder_cons pool rest e e1 handle handles e' :
      pool_connect pool e = (e1, Ok handle) →
      connectsInOrder rest e1 handles e' →
      connectsInOrder (pool :: rest) e (handle :: handles) e'.

End Vocabulary.

(** ** A scripted world, for running the service on concrete inputs *)

Module Demo.
(** What the ledgers, the wallet and the signer answer. *)
Record Scenario := {
  sc_connect : string → Result nat;
  sc_nym : string → Result GetNymResponse;
  sc_taa : string → Result (option ReplyData);
  sc_aml : string → Result (option ReplyData);
  sc_sign : LedgerRequest → Result LedgerRequest;
  sc_write : LedgerRequest → Result LedgerWriteReplyResponse;
}.

Definition quote : string := String (Ascii.ascii_of_nat 34) "".

Definition readReply (sc : Scenario) (pool : IndySdkPool) (request : LedgerRequest)
    : Result LedgerReadReplyResponse :=
  if bool_decide (request = "GET_TXN_AUTHOR_AGREEMENT") then
    match sc_taa sc (pool_id pool) with
    | Ok d => Ok {| reply_op := "REPLY"; result_data := d |}
    | Throw e => Throw e
    end
  else if bool_decide (request = "GET_ACCEPTANCE_MECHANISMS") then
    match sc_aml sc (pool_id pool) with
    | Ok d => Ok {| reply_op := "REPLY"; result_data := d |}
    | Throw e => Throw e
    end
  else
    match sc_nym sc (pool_id pool) with
    | Ok _ => Ok {| reply_op := pool_id pool; result_data := None |}
    | Throw e => Throw e
    end.

(** The environment is the clock, in milliseconds; a network or wallet
    call takes one millisecond. *)
Definition scripted (sc : Scenario) : Collaborators := {|
  Env := Z;
  Wallet := option nat;
  pool_connect pool e := ((e + 1)%Z, sc_connect sc (pool_id pool));
  pool_submitReadRequest pool request e := ((e + 1)%Z, readReply sc pool request);
  pool_submitWriteRequest pool request e := ((e + 1)%Z, sc_write sc request);
  indySdk_buildGetNymRequest did := Ok ("GET_NYM " +:+ did);
  indySdk_parseGetNymResponse reply := sc_nym sc (reply_op reply);
  indySdk_buildGetTxnAuthorAgreementRequest := Ok "GET_TXN_AUTHOR_AGREEMENT";
  indySdk_buildGetAcceptanceMechanismsRequest := Ok "GET_ACCEPTANCE_MECHANISMS";
  indySdk_appendTxnAuthorAgreementAcceptanceToRequest request text version digest
      mechanism time :=
    Ok (request +:+ " taa=" +:+ mechanism +:+ "@" +:+ version);
  indySdk_signRequest handle did request e := ((e + 1)%Z, sc_sign sc request);
  assertIndySdkWallet w :=
    match w with
    | Some _ => Ok tt
    | None => Throw (OtherError "AriesFrameworkError" "Expected wallet to be instance of IndySdkWallet")
    end;
  wallet_handle w :=
    match w with
    | Some h => Ok h
    | None => Throw (OtherError "AriesFrameworkError" "Wallet has not been initialized yet")
    end;
  isSelfCertifiedDid did verkey := bool_decide (verkey = "~" +:+ did);
  Date_getTime e := e;
  JSON_stringify_string s := quote +:+ s +:+ quote;
  JSON_stringify_strings l := "[" +:+ String.concat "," (map (λ s, quote +:+ s +:+ quote) l) +:+ "]";
  JSON_stringify_AuthorAgreement a := "{" +:+ quote +:+ "version" +:+ quote +:+ ":" +:+ quote +:+ version a +:+ quote +:+ "}";
|}.

Definition mkPool (ref : nat) (id : string) (production : bool)
    (namespace : option string) (taa : option TaaConfig) : IndySdkPool :=
  {| pool_ref := ref;
     config := {| config_id := id; isProduction := production;
                  indyNamespace := namespace;
                  transactionAuthorAgreement := taa |} |}.

Definition poolA : IndySdkPool := mkPool 0 "A" false (Some "a") None.
Definition poolB : IndySdkPool := mkPool 1 "B" true (Some "b") None.
Definition service : IndySdkPoolService := {| pools := [poolA; poolB] |}.

Definition notFound : Error := IndyError "LedgerNotFound" "309".
Definition timeout : Error := IndyError "PoolLedgerTimeout" "307".

Definition world0 (sc : Scenario) : @World (scripted sc) :=
  @Build_World (scripted sc) 0%Z ∅ ∅ [].

Definition context (sc : Scenario) : @AgentContext (scripted sc) :=
  @Build_AgentContext (scripted sc) (Some 7).

(** A scenario in which every collaborator succeeds and no ledger has an
    agreement. *)
Definition quiet : Scenario := {|
  sc_connect id := Ok (String.length id);
  sc_nym id := Throw notFound;
  sc_taa id := Ok None;
  sc_aml id := Ok None;
  sc_sign request := Ok (request +:+ " signed");
  sc_write request := Ok ("written: " +:+ request);
|}.
End Demo.

Module Runs.
Import Demo.

Definition nym (did verkey : string) : Result GetNymResponse :=
  Ok {| nym_did := did; nym_verkey := verkey; nym_role := "0" |}.

Definition found (pool : IndySdkPool) (did verkey : string) : PublicDidRequest :=
  {| pdr_did := {| nym_did := did; nym_verkey := verkey; nym_role := "0" |};
     pdr_pool := pool;
     pdr_response := {| reply_op := pool_id pool; result_data := None |} |}.

(** ** Connecting *)

(** The first ledger cannot be reached. *)
Definition firstUnreachable : Scenario := {|
  sc_connect id := if bool_decide (id = "A") then Throw timeout else Ok 1;
  sc_nym := sc_nym quiet;
  sc_taa := sc_taa quiet;
  sc_aml := sc_aml quiet;
  sc_sign := sc_sign quiet;
  sc_write := sc_write quiet;
|}.

(** The second ledger cannot be reached. *)
Definition secondUnreachable : Scenario := {|
  sc_connect id := if bool_decide (id = "B") then Throw timeout else Ok 1;
  sc_nym := sc_nym quiet;
  sc_taa := sc_taa quiet;
  sc_aml := sc_aml quiet;
  sc_sign := sc_sign quiet;
  sc_write := sc_write quiet;
|}.

Definition poolC : IndySdkPool := mkPool 2 "C" false (Some "b") None.
Definition threePools : IndySdkPoolService := {| pools := [poolA; poolB; poolC] |}.

(** ** Resolving *)

Definition answering (answer : string → Result GetNymResponse) : Scenario := {|
  sc_connect := sc_connect quiet;
  sc_nym := answer;
  sc_taa := sc_taa quiet;
  sc_aml := sc_aml quiet;
  sc_sign := sc_sign quiet;
  sc_write := sc_write quiet;
|}.

(** Every ledger knows the DID; only the third holds a self-certified record. *)
Definition selfCertifiedOnThird : Scenario :=
  answering (λ id, if bool_decide (id = "C") then nym "did1" "~did1"
                   else nym "did1" "verkey").

(** Every ledger knows the DID, none with a self-certified record. *)
Definition knownEverywhere : Scenario := answering (λ id, nym "did1" "verkey").

(** The first ledger does not know the DID, the second times out. *)
Definition notFoundThenTimeout : Scenario :=
  answering (λ id, if bool_decide (id = "A") then Throw notFound else Throw timeout).

(** An entry of the cache that names the second pool, and one that names a
    pool that is not configured. *)
Definition cachedOnB : CachedDidResponse :=
  {| nymResponse := {| nym_did := "did1"; nym_verkey := "cached"; nym_role := "0" |};
     poolId := "B" |}.

Definition worldWithCache (sc : Scenario) (entry : CachedDidResponse)
    : @World (scripted sc) :=
  @Build_World (scripted sc) 0%Z ∅ {[ cacheKey "did1" := entry ]} [].

(** ** Writing *)

Definition agreementData : ReplyData :=
  {| data_digest := "digest-1"; data_version := "1.0"; data_text := "terms";
     data_ratification_ts := 1500000000; data_aml := []; data_amlContext := "" |}.

Definition mechanismsData : ReplyData :=
  {| data_digest := ""; data_version := "1"; data_text := "";
     data_ratification_ts := 0;
     data_aml := [("wallet_agreement", "Accepted in the wallet")];
     data_amlContext := "context" |}.

(** Every ledger enforces version 1.0 of an agreement that can be accepted
    by [wallet_agreement]. *)
Definition withAgreement : Scenario := {|
  sc_connect := sc_connect quiet;
  sc_nym := sc_nym quiet;
  sc_taa id := Ok (Some agreementData);
  sc_aml id := Ok (Some mechanismsData);
  sc_sign := sc_sign quiet;
  sc_write := sc_write quiet;
|}.

Definition agreementSnapshot : AuthorAgreement :=
  spreadAuthorAgreement agreementData (Some (asAcceptanceMechanisms mechanismsData)).

(** A pool configured to accept with a mechanism named [toString], and one
    configured for another version of the agreement. *)
Definition poolToString : IndySdkPool :=
  mkPool 3 "T" true (Some "t")
    (Some {| taa_version := "1.0"; taa_acceptanceMechanism := "toString" |}).

Definition poolOldVersion : IndySdkPool :=
  mkPool 4 "V" true (Some "v")
    (Some {| taa_version := "0.9"; taa_acceptanceMechanism := "wallet_agreement" |}).

(** A world in which the first pool is known to have no agreement. *)
Definition worldNoAgreement (sc : Scenario) : @World (scripted sc) :=
  @Build_World (scripted sc) 0%Z {[ 0 := None ]} ∅ [].

Definition writeTo (sc : Scenario) (pool : IndySdkPool) (request : LedgerRequest)
    : @WriteCall (scripted sc) :=
  @Build_WriteCall (scripted sc) (context sc) pool request "did1".

(** Only the second ledger knows the DID. *)
Definition onlyOnSecond : Scenario :=
  answering (λ id, if bool_decide (id = "B") then nym "did1" "verkey"
                   else Throw notFound).

(** The ledgers do not answer the query for the agreement. *)
Definition agreementUnreachable : Scenario := {|
  sc_connect := sc_connect quiet;
  sc_nym := sc_nym quiet;
  sc_taa id := Throw timeout;
  sc_aml id := Ok None;
  sc_sign := sc_sign quiet;
  sc_write := sc_write quiet;
|}.

(** The ledgers answer the query for the agreement and fail the query for
    the acceptance mechanisms. *)
Definition mechanismsUnreachable : Scenario := {|
  sc_connect := sc_connect quiet;
  sc_nym := sc_nym quiet;
  sc_taa id := Ok (Some agreementData);
  sc_aml id := Throw timeout;
  sc_sign := sc_sign quiet;
  sc_write := sc_write quiet;
|}.

(** A pool configured for the agreement that the ledgers enforce. *)
Definition poolAccepting : IndySdkPool :=
  mkPool 7 "W" true (Some "w")
    (Some {| taa_version := "1.0"; taa_acceptanceMechanism := "wallet_agreement" |}).

(** ** Namespaces *)

End Runs.

(** ** Replacing the registry *)

(** [setPools]: one new pool object per configuration, in the order of the
    configurations.  [next] is the first object reference not yet in use;
    the new objects get the references [next], [next + 1], and so on. *)
Definition setPools (next : nat) (poolConfigs : list IndySdkPoolConfig)
    : IndySdkPoolService :=
  {| pools := imap (λ i poolConfig,
                      {| pool_ref := next + i; config := poolConfig |})
                   poolConfigs |}.

(** * Sorting requested credentials

    [packages/core/src/modules/proofs/formats/indy/util/sortRequestedCredentials.ts] *)

(** [Array.prototype.sort(comparefn)].  The sort is stable: elements that
    compare as equal keep their order, and an element moves behind another
    one only when [comparefn] is positive on them.  For a consistent
    comparison function this fixes the result, which is computed here by
    inserting the elements from the right. *)
Fixpoint Array_sort_insert {A} (comparefn : A → A → Z) (x : A) (sorted : list A)
    : list A :=
  match sorted with
  | [] => [x]
  | y :: rest =>
      if (0 <? comparefn x y)%Z then y :: Array_sort_insert comparefn x rest
      else x :: sorted
  end.

Definition Array_sort {A} (comparefn : A → A → Z) (array : list A) : list A :=
  foldr (Array_sort_insert comparefn) [] array.

Section SortRequestedCredentials.
(** A requested attribute or predicate; the sort reads its [revoked]
    property only, where [None] is [undefined]. *)
Context {Requested : Type} (revoked : Requested → option bool).

Definition staySame : Z := 0.
Definition credentialGoUp : Z := -1.
Definition credentialGoDown : Z := 1.

(** The comparison function of lines 19 to 32. *)
Definition compareRevoked (credential compareTo : Requested) : Z :=
  if bool_decide (revoked credential = revoked compareTo) then staySame
  else if bool_decide (revoked credential = None) then credentialGoUp
  else if bool_decide (revoked compareTo = None) then credentialGoDown
  else if bool_decide (revoked credential = Some false) then credentialGoUp
  else credentialGoDown.

(** The input array is cloned, so the caller's array is as before; the
    sorted clone is returned. *)
Definition sortRequestedCredentials (credentials : list Requested)
    : list Requested :=
  let credentialsClone := credentials in
  Array_sort compareRevoked credentialsClone.

(** The place of a credential in the order of the doc comment: no
    revocation status, then not revoked, then revoked. *)
Definition revokedRank (credential : Requested) : nat :=
  match revoked credential with
  | None => 0
  | Some false => 1
  | Some true => 2
  end.

Definition hasRevoked (status : option bool) (credential : Requested) : bool :=
  bool_decide (revoked credential = status).
End SortRequestedCredentials.

(** ** Reasoning about runs *)

Ltac unfold_monad :=
  unfold mbind, M_bind, mret, M_ret, bind, ret, throw, lift, emit, call,
    try_catch, get_env, read_authorAgreement, write_authorAgreement,
    cache_get, cache_set in *.

(** * Pool registry *)

Section Registry.
Context `{Collaborators}.

(** One pass of the connection loop: the pools are asked in order, and the
    first failure ends the loop. *)
Lemma connectToPools_loop_run ps acc w w' r :
  connectToPools_loop ps acc w = (w', r) →
  ∃ attempted,
    trace w' = trace w ++ map EvConnect attempted ∧
    cache w' = cache w ∧
    authorAgreementOf w' = authorAgreementOf w ∧
    match r with
    | Ok handles =>
        attempted = ps ∧ length handles = length acc + length ps
    | Throw e =>
        ∃ connected failing rest e0,
          ps = connected ++ failing :: rest ∧
          attempted = connected ++ [failing] ∧
          (pool_connect failing e0).2 = Throw e
    end.
Proof.
  revert acc w. induction ps as [|pool rest IH]; intros acc w Hrun; simpl in Hrun.
  - unfold ret in Hrun. simplify_eq. exists []. simpl.
    rewrite app_nil_r. repeat split; lia.
  - unfold connect in Hrun. unfold_monad. simpl in Hrun.
    destruct (pool_connect pool (env w)) as [e1 [handle|err]] eqn:Hc.
    + apply IH in Hrun as (att & Htr & Hca & Haa & Hres). simpl in *.
      exists (pool :: att). rewrite Htr, <- app_assoc. simpl.
      repeat split; [done..|].
      destruct r as [handles|e].
      * destruct Hres as [-> Hlen]. split; [done|].
        rewrite Hlen, length_app. simpl. lia.
      * destruct Hres as (connected & failing & rest' & e0 & -> & -> & Hf).
        by exists (pool :: connected), failing, rest', e0.
    + simplify_eq. exists [pool]. simpl. repeat split.
      exists [], pool, rest, (env w). by rewrite Hc.
Qed.

Lemma connectAttempts_app tr1 tr2 :
  connectAttempts (tr1 ++ tr2) = connectAttempts tr1 ++ connectAttempts tr2.
Proof. apply omap_app. Qed.

Lemma connectAttempts_map ps : connectAttempts (map EvConnect ps) = ps.
Proof. induction ps; simpl; [done|]. unfold connectAttempts in *. simpl. by f_equal. Qed.

Lemma withEvents_nil (w : World) : withEvents w (env w) [] = w.
Proof. destruct w. unfold withEvents. simpl. by rewrite app_nil_r. Qed.

Lemma withEvents_withEvents (w : World) e1 evs1 e2 evs2 :
  withEvents (withEvents w e1 evs1) e2 evs2 = withEvents w e2 (evs1 ++ evs2).
Proof. unfold withEvents. simpl. by rewrite app_assoc. Qed.

Lemma connect_run pool w :
  connect pool w
    = (withEvents w (pool_connect pool (env w)).1 [EvConnect pool],
       (pool_connect pool (env w)).2).
Proof.
  unfold connect. unfold_monad. simpl. unfold withEvents.
  by destruct (pool_connect pool (env w)).
Qed.

(** The loop over pools that all connect. *)
Lemma connectToPools_loop_all ps e handles e' :
  connectsInOrder ps e handles e' →
  ∀ acc w, env w = e →
    connectToPools_loop ps acc w
      = (withEvents w e' (map EvConnect ps), Ok (acc ++ handles)).
Proof.
  induction 1 as [e|pool rest e e1 handle handles e' Hc _ IH]; intros acc w Hw.
  - simpl. unfold ret. by rewrite app_nil_r, <- Hw, withEvents_nil.
  - simpl. unfold mbind, M_bind, bind. rewrite connect_run, Hw, Hc. simpl.
    rewrite (IH (acc ++ [handle]) (withEvents w e1 [EvConnect pool])) by done.
    by rewrite withEvents_withEvents, <- app_assoc.
Qed.

(** The loop over pools of which one fails to connect. *)
Lemma connectToPools_loop_fails connected failing rest e handles e0 e1 err :
  connectsInOrder connected e handles e0 →
  pool_connect failing e0 = (e1, Throw err) →
  ∀ acc w, env w = e →
    connectToPools_loop (connected ++ failing :: rest) acc w
      = (withEvents w e1 (map EvConnect (connected ++ [failing])), Throw err).
Proof.
  intros Hall Hfail.
  induction Hall as [e|pool others e e2 handle handles e0 Hc _ IH]; intros acc w Hw.
  - simpl. unfold mbind, M_bind, bind. by rewrite connect_run, Hw, Hfail.
  - simpl. unfold mbind, M_bind, bind. rewrite connect_run, Hw, Hc. simpl.
    rewrite (IH Hfail (acc ++ [handle]) (withEvents w e2 [EvConnect pool])) by done.
    by rewrite withEvents_withEvents.
Qed.

(** From any environment, either all pools connect, or there is a first
    one that fails. *)
Lemma connectsInOrder_or_fails ps e :
  (∃ handles e', connectsInOrder ps e handles e')
  ∨ (∃ connected failing rest handles e0 e1 err,
       ps = connected ++ failing :: rest ∧
       connectsInOrder connected e handles e0 ∧
       pool_connect failing e0 = (e1, Throw err)).
Proof.
  revert e. induction ps as [|pool rest IH]; intros e.
  - left. exists [], e. constructor.
  - destruct (pool_connect pool e) as [e1 [handle|err]] eqn:Hc.
    + destruct (IH e1) as [(handles & e' & Hall)
                          |(connected & failing & rest' & handles & e0 & e2 & err
                            & -> & Hall & Hfail)].
      * left. exists (handle :: handles), e'. by econstructor.
      * right. exists (pool :: connected), failing, rest', (handle :: handles), e0, e2, err.
        split; [done|]. split; [by econstructor|done].
    + right. exists [], pool, rest, [], e, e1, err.
      split; [done|]. split; [constructor|done].
Qed.

(** C5, as the code has it.  [connectToPools] asks the pools to connect in
    registry order, one at a time, each from the environment the previous
    connection left.  If every connection succeeds, it returns their
    handles, one per pool and in this order, and every pool was asked.  If
    a connection fails, that failure is the failure of [connectToPools],
    the pools before the failing one were asked and connected, and the pools
    after it are not asked.  Nothing else happens: the call returns only
    when every connection succeeded, and fails only with the failure of
    the first pool that does not connect. *)
Theorem connectToPools_sequential_until_failure this w :
  (∀ handles e',
     connectsInOrder (pools this) (env w) handles e' →
     connectToPools this w
       = (withEvents w e' (map EvConnect (pools this)), Ok handles))
  ∧ (∀ connected failing rest handles e0 e1 err,
       pools this = connected ++ failing :: rest →
       connectsInOrder connected (env w) handles e0 →
       pool_connect failing e0 = (e1, Throw err) →
       connectToPools this w
         = (withEvents w e1 (map EvConnect (connected ++ [failing])), Throw err))
  ∧ (∀ w' r,
       connectToPools this w = (w', r) →
       match r with
       | Ok handles =>
           connectsInOrder (pools this) (env w) handles (env w') ∧
           w' = withEvents w (env w') (map EvConnect (pools this))
       | Throw err =>
           ∃ connected failing rest handles e0,
             pools this = connected ++ failing :: rest ∧
             connectsInOrder connected (env w) handles e0 ∧
             pool_connect failing e0 = (env w', Throw err) ∧
             w' = withEvents w (env w') (map EvConnect (connected ++ [failing]))
       end).
Proof.
  assert (∀ handles e',
            connectsInOrder (pools this) (env w) handles e' →
            connectToPools this w
              = (withEvents w e' (map EvConnect (pools this)), Ok handles)) as Hall.
  { intros handles e' Hc. unfold connectToPools.
    by rewrite (connectToPools_loop_all _ _ _ _ Hc [] w). }
  assert (∀ connected failing rest handles e0 e1 err,
            pools this = connected ++ failing :: rest →
            connectsInOrder connected (env w) handles e0 →
            pool_connect failing e0 = (e1, Throw err) →
            connectToPools this w
              = (withEvents w e1 (map EvConnect (connected ++ [failing])), Throw err))
    as Hfails.
  { intros connected failing rest handles e0 e1 err Hp Hc Hf. unfold connectToPools.
    rewrite Hp. by rewrite (connectToPools_loop_fails _ _ _ _ _ _ _ _ Hc Hf [] w). }
  split; [done|]. split; [done|].
  intros w' r Hrun.
  destruct (connectsInOrder_or_fails (pools this) (env w))
    as [(handles & e' & Hc)
       |(connected & failing & rest & handles & e0 & e1 & err & Hp & Hc & Hf)].
  - rewrite (Hall _ _ Hc) in Hrun. by simplify_eq.
  - rewrite (Hfails _ _ _ _ _ _ _ Hp Hc Hf) in Hrun. simplify_eq. simpl.
    by exists connected, failing, rest, handles, e0.
Qed.

(** [getPoolForNamespace] on a namespace string that is not empty: the
    first pool of the registry that carries it. *)
Lemma getPoolForNamespace_find this ns :
  pools this ≠ [] → ns ≠ "" →
  getPoolForNamespace this (Some ns) =
    match List.find (λ pool, bool_decide (didIndyNamespace pool = Some ns))
            (pools this) with
    | Some pool => Ok pool
    | None => Throw (IndySdkPoolNotFoundError
                       ("No ledgers found for IndyNamespace '" +:+ ns +:+ "'."))
    end.
Proof.
  intros Hne Hns. unfold getPoolForNamespace.
  destruct (pools this) as [|first rest] eqn:Hp; [done|].
  simpl js_not_string. rewrite bool_decide_eq_false_2 by done. done.
Qed.


End Registry.

(** * Resolution engine *)

Section Resolution.
Context `{Collaborators}.

(** ** Querying the pools *)

Lemma getDidFromPool_run did pool w w' r :
  getDidFromPool did pool w = (w', r) →
  cache w' = cache w ∧
  authorAgreementOf w' = authorAgreementOf w ∧
  trace w' = trace w ++
    match indySdk_buildGetNymRequest did with
    | Ok request => [EvSubmitRead pool request]
    | Throw _ => []
    end ∧
  match r with
  | Ok v => pdr_pool v = pool
  | Throw _ => True
  end.
Proof.
  unfold getDidFromPool, pool_read. unfold_monad. simpl.
  destruct (indySdk_buildGetNymRequest did) as [request|e0]; simpl.
  - destruct (pool_submitReadRequest pool request (env w)) as [e1 [reply|e]]; simpl.
    + destruct (indySdk_parseGetNymResponse reply) as [nym|e]; simpl.
      * intros; by simplify_eq.
      * destruct (isIndyError e _); intros; by simplify_eq.
    + destruct (isIndyError e _); intros; by simplify_eq.
  - destruct (isIndyError e0 _); intros; simplify_eq; by rewrite app_nil_r.
Qed.

Lemma allSettled_getDidFromPool_run did ps w w' r :
  allSettled (map (λ pool, getDidFromPool did pool) ps) w = (w', r) →
  ∃ rs,
    r = Ok rs ∧
    cache w' = cache w ∧
    authorAgreementOf w' = authorAgreementOf w ∧
    trace w' = trace w ++
      match indySdk_buildGetNymRequest did with
      | Ok request => map (λ pool, EvSubmitRead pool request) ps
      | Throw _ => []
      end ∧
    Forall2 (λ pool o, match o with
                       | Fulfilled v => pdr_pool (value v) = pool
                       | Rejected _ => True
                       end) ps rs.
Proof.
  revert w w' r. induction ps as [|pool rest IH]; intros w w' r; simpl.
  - unfold ret. intros; simplify_eq. exists [].
    repeat split; [|constructor].
    destruct (indySdk_buildGetNymRequest did); by rewrite app_nil_r.
  - unfold mbind, M_bind, bind, try_catch at 1.
    destruct (getDidFromPool did pool w) as [w1 r1] eqn:H1.
    apply getDidFromPool_run in H1 as (Hc1 & Ha1 & Ht1 & Hp1).
    assert (∀ o w2 r2,
      (match o with Fulfilled v => pdr_pool (value v) = pool | Rejected _ => True end) →
      allSettled (map (λ pool, getDidFromPool did pool) rest) w1 = (w2, r2) →
      (match r2 with Ok a => (w2, Ok (o :: a)) | Throw e => (w2, Throw e) end) = (w', r) →
      ∃ rs, r = Ok rs ∧ cache w' = cache w ∧
        authorAgreementOf w' = authorAgreementOf w ∧
        trace w' = trace w ++
          match indySdk_buildGetNymRequest did with
          | Ok request => EvSubmitRead pool request :: map (λ pool, EvSubmitRead pool request) rest
          | Throw _ => []
          end ∧
        Forall2 (λ pool o, match o with
                           | Fulfilled v => pdr_pool (value v) = pool
                           | Rejected _ => True
                           end) (pool :: rest) rs) as Hstep.
    { intros o w2 r2 Ho H2 Heq.
      apply IH in H2 as (rs & -> & Hc2 & Ha2 & Ht2 & Hf2). simplify_eq.
      exists (o :: rs).
      split; [done|]. split; [congruence|]. split; [congruence|].
      split; [|by constructor].
      rewrite Ht2, Ht1.
      destruct (indySdk_buildGetNymRequest did); by rewrite <- app_assoc. }
    destruct r1 as [v|e]; unfold ret, mret, M_ret; simpl;
      destruct (allSettled _ w1) as [w2 r2] eqn:H2; intros Heq;
      eapply Hstep; eauto; done.
Qed.

Lemma allSettled_getDidFromPool_eq did ps w :
  allSettled (map (λ pool, getDidFromPool did pool) ps) w =
    ((allSettled (map (λ pool, getDidFromPool did pool) ps) w).1,
     Ok (didResponses did ps w)).
Proof.
  unfold didResponses.
  destruct (allSettled _ w) as [w' r] eqn:Hrun.
  apply allSettled_getDidFromPool_run in Hrun as (rs & -> & _). done.
Qed.

Lemma find_ext_bool {A} (f g : A → bool) (l : list A) :
  (∀ x, f x = g x) → List.find f l = List.find g l.
Proof. intros E. induction l as [|x l IH]; simpl; [done|]. by rewrite E, IH. Qed.

Lemma find_none_bool {A} (f : A → bool) (l : list A) :
  (∀ x, x ∈ l → f x = false) → List.find f l = None.
Proof.
  induction l as [|x l IH]; intros Hf; simpl; [done|].
  rewrite (Hf x) by set_solver. apply IH. intros y Hy. apply Hf. set_solver.
Qed.

(** ** [getPoolForDid], step by step *)

(** With a registry that is not empty, [getPoolForDid] reads the cache;
    on a hit it is done, otherwise it queries every pool, and either fails
    with the failure for no success or caches and returns the chosen
    response. *)
Lemma getPoolForDid_run this ctx did w :
  pools this ≠ [] →
  getPoolForDid this ctx did w =
    match cacheHit this did w with
    | Some res => ((cache_get (cacheKey did) w).1, Ok res)
    | None =>
        let rs := queryOutcomes this did w in
        let w1 := afterQueries this did w in
        if (length (onlyFulfilled rs) =? 0)%nat then
          (w1, Throw (noneSuccessful this did (onlyRejected rs)))
        else
          match choose (onlyFulfilled rs) with
          | Ok v =>
              ((cache_set (cacheKey did)
                  {| nymResponse := pdr_did v; poolId := pool_id (pdr_pool v) |}
                  w1).1,
               Ok {| res_pool := pdr_pool v; res_did := pdr_did v |})
          | Throw e => (w1, Throw e)
          end
    end.
Proof.
  intros Hne. unfold getPoolForDid, cacheHit.
  destruct (pools this) as [|p0 ps] eqn:Hp; [done|].
  change (length (p0 :: ps) =? 0)%nat with false. cbv iota.
  rewrite <- Hp. clear Hne.
  unfold mbind, M_bind, bind at 1. unfold cache_get at 1.
  assert (∀ w0, w0 = (cache_get (cacheKey did) w).1 →
    ('(successful, rejected) ← getSettledDidResponsesFromPools did (pools this);
     if (length successful =? 0)%nat then throw (noneSuccessful this did rejected)
     else value ← lift (choose successful);
          cache_set (cacheKey did)
            {| nymResponse := pdr_did value; poolId := pool_id (pdr_pool value) |};;
          ret {| res_pool := pdr_pool value; res_did := pdr_did value |}) w0 =
    (let rs := queryOutcomes this did w in
     let w1 := afterQueries this did w in
     if (length (onlyFulfilled rs) =? 0)%nat then
       (w1, Throw (noneSuccessful this did (onlyRejected rs)))
     else
       match choose (onlyFulfilled rs) with
       | Ok v =>
           ((cache_set (cacheKey did)
               {| nymResponse := pdr_did v; poolId := pool_id (pdr_pool v) |}
               w1).1,
            Ok {| res_pool := pdr_pool v; res_did := pdr_did v |})
       | Throw e => (w1, Throw e)
       end)) as Hmiss.
  { intros w0 ->. unfold getSettledDidResponsesFromPools, queryOutcomes, afterQueries.
    unfold mbind, M_bind, bind.
    rewrite allSettled_getDidFromPool_eq. unfold ret at 1. cbv zeta.
    destruct (length (onlyFulfilled _) =? 0)%nat; [done|].
    unfold lift. by destruct (choose _). }
  destruct (cache w !! cacheKey did) as [cached|] eqn:Hc; simpl.
  - rewrite (find_ext_bool
               (λ pool, bool_decide (Some (pool_id pool) = Some (poolId cached)))
               (λ pool, bool_decide (pool_id pool = poolId cached)) (pools this)).
    2:{ intros x. apply bool_decide_ext. split; congruence. }
    destruct (List.find _ (pools this)) as [pool|]; [done|].
    apply Hmiss. unfold cache_get. by rewrite Hc.
  - apply Hmiss. unfold cache_get. by rewrite Hc.
Qed.

(** ** The preference among the successful responses *)

Lemma find_filter_head {A} (f : A → bool) (l : list A) (x : A) :
  List.find f l = Some x → ∃ tl, List.filter f l = x :: tl.
Proof.
  induction l as [|y l IH]; simpl; [done|].
  destruct (f y); [intros; simplify_eq; eauto|done].
Qed.

Lemma find_none_filter {A} (f : A → bool) (l : list A) :
  List.find f l = None → List.filter f l = [].
Proof. induction l as [|y l IH]; simpl; [done|]. by destruct (f y). Qed.

Lemma filter_first {A} (f : A → bool) (l : list A) (i : nat) (x : A) :
  l !! i = Some x → f x = true →
  (∀ j y, j < i → l !! j = Some y → f y = false) →
  ∃ tl, List.filter f l = x :: tl.
Proof.
  revert i. induction l as [|y l IH]; intros i Hi Hx Hbefore; [done|].
  destruct i as [|i]; simpl in *.
  - simplify_eq. rewrite Hx. eauto.
  - rewrite (Hbefore 0 y) by (done || lia).
    apply (IH i); [done..|]. intros j z Hj Hz. apply (Hbefore (S j)); [lia|done].
Qed.

Lemma onlyFulfilled_find P rs i v :
  firstFulfilled P rs i v →
  List.find (λ r, P (value r)) (onlyFulfilled rs) = Some {| value := v |}.
Proof.
  revert i. induction rs as [|o rs IH]; intros i (Hi & Hv & Hbefore); [done|].
  destruct i as [|i]; simpl in *.
  - simplify_eq. simpl. by rewrite Hv.
  - assert (firstFulfilled P rs i v) as Hrest.
    { split; [done|]. split; [done|].
      intros j v' Hj Hl. apply (Hbefore (S j)); [lia|done]. }
    destruct o as [[v0]|e]; simpl; [|by apply (IH i)].
    rewrite (Hbefore 0 v0) by (done || lia). by apply (IH i).
Qed.

Lemma onlyFulfilled_find_none P rs :
  noFulfilled P rs → List.find (λ r, P (value r)) (onlyFulfilled rs) = None.
Proof.
  induction rs as [|o rs IH]; intros Hno; [done|].
  assert (noFulfilled P rs) as Hrest by (intros j v' Hl; by apply (Hno (S j))).
  destruct o as [[v0]|e]; simpl; [|by apply IH].
  rewrite (Hno 0 v0) by done. by apply IH.
Qed.

Lemma firstFulfilled_weaken (P Q : PublicDidRequest → bool) rs i v :
  firstFulfilled P rs i v → Q v = true →
  (∀ v', Q v' = true → P v' = true) →
  firstFulfilled Q rs i v.
Proof.
  intros (Hi & _ & Hbefore) HQ HQP. split; [done|]. split; [done|].
  intros j v' Hj Hl. specialize (Hbefore j v' Hj Hl).
  destruct (Q v') eqn:E; [|done]. apply HQP in E. congruence.
Qed.

(** Where some success satisfies [P], there is a first one. *)
Lemma firstFulfilled_exists P rs :
  (∃ i v, rs !! i = Some (Fulfilled {| value := v |}) ∧ P v = true) →
  ∃ i v, firstFulfilled P rs i v.
Proof.
  induction rs as [|o rs IH]; intros (i & v & Hi & Hv); [done|].
  destruct o as [[v0]|e].
  - destruct (P v0) eqn:Hv0.
    + exists 0, v0. split; [done|]. split; [done|]. intros j v' Hj. lia.
    + destruct i as [|i]; simpl in Hi; [simplify_eq; congruence|].
      destruct IH as (i' & v1 & Hi' & Hv1 & Hbefore); [by eauto|].
      exists (S i'), v1. split; [done|]. split; [done|].
      intros [|j] v' Hj Hl; simpl in Hl; [by simplify_eq|].
      apply (Hbefore j); [lia|done].
  - destruct i as [|i]; simpl in Hi; [done|].
    destruct IH as (i' & v1 & Hi' & Hv1 & Hbefore); [by eauto|].
    exists (S i'), v1. split; [done|]. split; [done|].
    intros [|j] v' Hj Hl; simpl in Hl; [done|].
    apply (Hbefore j); [lia|done].
Qed.

Lemma choose_self_certified rs i v :
  firstFulfilled selfCertified rs i v → choose (onlyFulfilled rs) = Ok v.
Proof.
  intros Hfirst. unfold choose.
  change (List.find _ (onlyFulfilled rs))
    with (List.find (λ r, selfCertified (value r)) (onlyFulfilled rs)).
  by rewrite (onlyFulfilled_find _ _ _ _ Hfirst).
Qed.

Lemma choose_production rs i v :
  noFulfilled selfCertified rs →
  firstFulfilled fromProduction rs i v → choose (onlyFulfilled rs) = Ok v.
Proof.
  intros Hno Hfirst. unfold choose.
  change (List.find _ (onlyFulfilled rs))
    with (List.find (λ r, selfCertified (value r)) (onlyFulfilled rs)).
  rewrite (onlyFulfilled_find_none _ _ Hno). simpl.
  apply onlyFulfilled_find, find_filter_head in Hfirst as [tl Htl].
  change (List.filter (λ s, isProduction _) (onlyFulfilled rs))
    with (List.filter (λ r, fromProduction (value r)) (onlyFulfilled rs)).
  by rewrite Htl.
Qed.

Lemma choose_non_production rs i v :
  noFulfilled selfCertified rs →
  noFulfilled fromProduction rs →
  firstFulfilled (λ _, true) rs i v → choose (onlyFulfilled rs) = Ok v.
Proof.
  intros Hno Hnp Hfirst. unfold choose.
  change (List.find _ (onlyFulfilled rs))
    with (List.find (λ r, selfCertified (value r)) (onlyFulfilled rs)).
  rewrite (onlyFulfilled_find_none _ _ Hno). simpl.
  change (List.filter (λ s, isProduction _) (onlyFulfilled rs))
    with (List.filter (λ r, fromProduction (value r)) (onlyFulfilled rs)).
  rewrite (find_none_filter _ _ (onlyFulfilled_find_none _ _ Hnp)). simpl.
  assert (firstFulfilled (λ v, negb (fromProduction v)) rs i v) as Hfirst'.
  { apply (firstFulfilled_weaken (λ _, true)); [done| |done].
    destruct Hfirst as (Hi & _). by rewrite (Hnp _ _ Hi). }
  apply onlyFulfilled_find, find_filter_head in Hfirst' as [tl Htl].
  change (List.filter (λ s, negb _) (onlyFulfilled rs))
    with (List.filter (λ r, negb (fromProduction (value r))) (onlyFulfilled rs)).
  by rewrite Htl.
Qed.

Lemma firstFulfilled_some_success P rs i v :
  firstFulfilled P rs i v → (length (onlyFulfilled rs) =? 0)%nat = false.
Proof.
  intros Hfirst. apply onlyFulfilled_find in Hfirst.
  by destruct (onlyFulfilled rs).
Qed.

(** Outcome [i] belongs to pool [i] of the registry. *)
Lemma queryOutcomes_aligned this did w :
  Forall2 (λ pool o, match o with
                     | Fulfilled v => pdr_pool (value v) = pool
                     | Rejected _ => True
                     end) (pools this) (queryOutcomes this did w).
Proof.
  unfold queryOutcomes, didResponses.
  destruct (allSettled _ _) as [w' r] eqn:Hrun.
  apply allSettled_getDidFromPool_run in Hrun as (rs & -> & _ & _ & _ & Hall).
  done.
Qed.

Lemma queryOutcomes_pool this did w i v :
  queryOutcomes this did w !! i = Some (Fulfilled {| value := v |}) →
  pools this !! i = Some (pdr_pool v).
Proof.
  intros Hi. pose proof (queryOutcomes_aligned this did w) as Hall.
  destruct (Forall2_lookup_r _ _ _ _ _ Hall Hi) as (pool & Hpool & Heq).
  simpl in Heq. by rewrite Heq.
Qed.

Lemma queryOutcomes_length this did w :
  length (queryOutcomes this did w) = length (pools this).
Proof. symmetry. eapply Forall2_length, queryOutcomes_aligned. Qed.

Lemma queryOutcomes_registry this did w i o :
  queryOutcomes this did w !! i = Some o → pools this ≠ [].
Proof.
  intros Hi Hnil. apply lookup_lt_Some in Hi.
  rewrite queryOutcomes_length, Hnil in Hi. simpl in Hi. lia.
Qed.

(** C1.  When the cache does not answer and some pool query succeeds with
    a self-certified response, [getPoolForDid] returns the first such
    response in the order of the registry, whether or not other pools
    answered, earlier or from a production ledger. *)
Theorem getPoolForDid_prefers_self_certified this ctx did w i v :
  cacheHit this did w = None →
  firstFulfilled selfCertified (queryOutcomes this did w) i v →
  (getPoolForDid this ctx did w).2
    = Ok {| res_pool := pdr_pool v; res_did := pdr_did v |}
  ∧ pools this !! i = Some (pdr_pool v).
Proof.
  intros Hmiss Hfirst. split; [|destruct Hfirst as [Hi _]; by eapply queryOutcomes_pool].
  rewrite getPoolForDid_run, Hmiss
    by (destruct Hfirst as [Hi _]; by eapply queryOutcomes_registry).
  cbv zeta. rewrite (firstFulfilled_some_success _ _ _ _ Hfirst).
  by rewrite (choose_self_certified _ _ _ Hfirst).
Qed.

(** C2.  When the cache does not answer and no successful response is
    self-certified: the first success from a production pool, in the order
    of the registry, is returned if there is one; if no success comes from
    a production pool, the first success is returned. *)
Theorem getPoolForDid_prefers_production this ctx did w i v :
  cacheHit this did w = None →
  noFulfilled selfCertified (queryOutcomes this did w) →
  firstFulfilled fromProduction (queryOutcomes this did w) i v
  ∨ (noFulfilled fromProduction (queryOutcomes this did w)
     ∧ firstFulfilled (λ _, true) (queryOutcomes this did w) i v) →
  (getPoolForDid this ctx did w).2
    = Ok {| res_pool := pdr_pool v; res_did := pdr_did v |}
  ∧ pools this !! i = Some (pdr_pool v).
Proof.
  intros Hmiss Hno Hcases.
  assert (queryOutcomes this did w !! i = Some (Fulfilled {| value := v |})) as Hi
    by (destruct Hcases as [[? _]|[_ [? _]]]; done).
  split; [|by eapply queryOutcomes_pool].
  rewrite getPoolForDid_run, Hmiss by (by eapply queryOutcomes_registry).
  cbv zeta. destruct Hcases as [Hprod|[Hnp Hfirst]].
  - rewrite (firstFulfilled_some_success _ _ _ _ Hprod).
    by rewrite (choose_production _ _ _ Hno Hprod).
  - rewrite (firstFulfilled_some_success _ _ _ _ Hfirst).
    by rewrite (choose_non_production _ _ _ Hno Hnp Hfirst).
Qed.

(** ** No pool succeeded *)

Lemma allRejected_tail o rs : allRejected (o :: rs) → allRejected rs.
Proof. intros Hall i o' Hi. by apply (Hall (S i)). Qed.

Lemma allRejected_onlyFulfilled rs : allRejected rs → onlyFulfilled rs = [].
Proof.
  induction rs as [|o rs IH]; intros Hall; [done|].
  destruct (Hall 0 o) as [e ->]; [done|]. simpl. eapply IH, allRejected_tail, Hall.
Qed.

Lemma allRejected_onlyRejected rs i e :
  allRejected rs →
  rs !! i = Some (Rejected {| reason := e |}) ↔
  onlyRejected rs !! i = Some {| reason := e |}.
Proof.
  revert i. induction rs as [|o rs IH]; intros i Hall; [done|].
  destruct (Hall 0 o) as [e0 ->]; [done|]. simpl.
  destruct i as [|i]; simpl.
  - split; intros; by simplify_eq.
  - eapply IH, allRejected_tail, Hall.
Qed.

Lemma noneSuccessful_all_not_found this did rejected :
  (∀ r, r ∈ rejected → instanceof_IndySdkPoolNotFoundError (reason r) = true) →
  noneSuccessful this did rejected
    = IndySdkPoolNotFoundError (didNotFoundMessage did (length (pools this))).
Proof.
  intros Hall. unfold noneSuccessful.
  assert (forallb (λ e, instanceof_IndySdkPoolNotFoundError (reason e)) rejected
          = true) as ->; [|done].
  apply forallb_forall. intros r Hr. apply Hall. by apply list_elem_of_In.
Qed.

Lemma noneSuccessful_other this did rejected i e :
  rejected !! i = Some {| reason := e |} →
  instanceof_IndySdkPoolNotFoundError e = false →
  (∀ j e', j < i → rejected !! j = Some {| reason := e' |} →
           instanceof_IndySdkPoolNotFoundError e' = true) →
  ∃ message, noneSuccessful this did rejected = IndySdkPoolError message (Some e).
Proof.
  intros Hi He Hbefore. unfold noneSuccessful.
  destruct (forallb _ rejected) eqn:Hall.
  - rewrite forallb_forall in Hall.
    specialize (Hall {| reason := e |}). simpl in Hall.
    rewrite Hall in He; [done|]. apply list_elem_of_In. by eapply list_elem_of_lookup_2.
  - destruct (filter_first
                (λ r, negb (instanceof_IndySdkPoolNotFoundError (reason r)))
                rejected i {| reason := e |}) as [tl ->]; [done|simpl; by rewrite He| |].
    + intros j [e'] Hj Hl. simpl. by rewrite (Hbefore j e').
    + simpl. eauto.
Qed.

(** C3.  With a registry that is not empty and no answer from the cache,
    if every pool query fails: when every failure is a not-found outcome,
    [getPoolForDid] fails with the not-found error whose message names the
    DID and the number of configured pools; otherwise it fails with an
    [IndySdkPoolError] whose cause is the first failure, in the order of
    the registry, that is not a not-found outcome. *)
Theorem getPoolForDid_no_success this ctx did w :
  pools this ≠ [] →
  cacheHit this did w = None →
  allRejected (queryOutcomes this did w) →
  ((∀ i e, queryOutcomes this did w !! i = Some (Rejected {| reason := e |}) →
           instanceof_IndySdkPoolNotFoundError e = true) →
   (getPoolForDid this ctx did w).2
     = Throw (IndySdkPoolNotFoundError
                (didNotFoundMessage did (length (pools this)))))
  ∧ (∀ i e,
       queryOutcomes this did w !! i = Some (Rejected {| reason := e |}) →
       instanceof_IndySdkPoolNotFoundError e = false →
       (∀ j e', j < i →
          queryOutcomes this did w !! j = Some (Rejected {| reason := e' |}) →
          instanceof_IndySdkPoolNotFoundError e' = true) →
       ∃ message,
         (getPoolForDid this ctx did w).2
           = Throw (IndySdkPoolError message (Some e))).
Proof.
  intros Hne Hmiss Hall.
  rewrite getPoolForDid_run, Hmiss by done. cbv zeta.
  rewrite (allRejected_onlyFulfilled _ Hall). simpl. split.
  - intros Hnf. f_equal. apply noneSuccessful_all_not_found.
    intros [e] Hr. apply list_elem_of_lookup in Hr as [i Hi]. simpl.
    apply (Hnf i). by apply allRejected_onlyRejected.
  - intros i e Hi He Hbefore.
    destruct (noneSuccessful_other this did
                (onlyRejected (queryOutcomes this did w)) i e) as [message ->];
      [by apply allRejected_onlyRejected|done| |by eauto].
    intros j e' Hj Hl. apply (Hbefore j e' Hj). by apply allRejected_onlyRejected.
Qed.

(** ** The cache *)

Lemma afterQueries_fields this did w :
  cache (afterQueries this did w) = cache w ∧
  authorAgreementOf (afterQueries this did w) = authorAgreementOf w ∧
  trace (afterQueries this did w)
    = trace w ++ EvCacheGet (cacheKey did) :: queryEvents this did.
Proof.
  unfold afterQueries, queryEvents.
  destruct (allSettled _ _) as [w' r] eqn:Hrun.
  apply allSettled_getDidFromPool_run in Hrun as (rs & -> & Hc & Ha & Ht & _).
  simpl in *. rewrite Hc, Ha, Ht, <- app_assoc. done.
Qed.

(** The world [getPoolForDid] leaves when the cache did not answer. *)
Lemma getPoolForDid_miss_world this ctx did w :
  pools this ≠ [] →
  cacheHit this did w = None →
  env (getPoolForDid this ctx did w).1 = env (afterQueries this did w) ∧
  authorAgreementOf (getPoolForDid this ctx did w).1 = authorAgreementOf w ∧
  match (getPoolForDid this ctx did w).2 with
  | Ok res =>
      cache (getPoolForDid this ctx did w).1
        = <[cacheKey did := cacheEntry res]> (cache w) ∧
      trace (getPoolForDid this ctx did w).1
        = trace w ++ EvCacheGet (cacheKey did) :: queryEvents this did
            ++ [EvCacheSet (cacheKey did) (cacheEntry res)]
  | Throw _ =>
      cache (getPoolForDid this ctx did w).1 = cache w ∧
      trace (getPoolForDid this ctx did w).1
        = trace w ++ EvCacheGet (cacheKey did) :: queryEvents this did
  end.
Proof.
  intros Hne Hmiss. rewrite getPoolForDid_run, Hmiss by done. cbv zeta.
  destruct (afterQueries_fields this did w) as (Hc & Ha & Ht).
  destruct (length _ =? 0)%nat; simpl; [done|].
  destruct (choose _) as [v|e]; simpl; [|done].
  unfold cacheEntry. simpl. rewrite Hc, Ht, <- app_assoc. done.
Qed.

(** The queries read the environment only: neither the cache nor the
    trace influences their outcomes. *)
Lemma getDidFromPool_env did pool w v :
  env w = env v →
  (getDidFromPool did pool w).2 = (getDidFromPool did pool v).2 ∧
  env (getDidFromPool did pool w).1 = env (getDidFromPool did pool v).1.
Proof.
  intros Henv. unfold getDidFromPool, pool_read. unfold_monad. simpl.
  rewrite Henv.
  destruct (indySdk_buildGetNymRequest did) as [request|e0]; simpl.
  - destruct (pool_submitReadRequest pool request (env v)) as [e1 [reply|e]]; simpl.
    + destruct (indySdk_parseGetNymResponse reply) as [nym|e]; simpl; [done|].
      by destruct (isIndyError e _).
    + by destruct (isIndyError e _).
  - by destruct (isIndyError e0 _).
Qed.

Lemma allSettled_getDidFromPool_env did ps w v :
  env w = env v →
  (allSettled (map (λ pool, getDidFromPool did pool) ps) w).2
    = (allSettled (map (λ pool, getDidFromPool did pool) ps) v).2 ∧
  env (allSettled (map (λ pool, getDidFromPool did pool) ps) w).1
    = env (allSettled (map (λ pool, getDidFromPool did pool) ps) v).1.
Proof.
  revert w v. induction ps as [|pool rest IH]; intros w v Henv; simpl; [done|].
  unfold mbind, M_bind, bind, try_catch, mret, M_ret, ret.
  destruct (getDidFromPool_env did pool w v Henv) as [Hr He].
  destruct (getDidFromPool did pool w) as [w1 r1].
  destruct (getDidFromPool did pool v) as [v1 r1']. simpl in *. subst r1'.
  destruct (IH w1 v1 He) as [Hr' He'].
  destruct r1; simpl;
    destruct (allSettled _ w1) as [w2 r2];
    destruct (allSettled _ v1) as [v2 r2']; simpl in *; subst r2';
    by destruct r2.
Qed.

Lemma queryOutcomes_forget this did w :
  queryOutcomes this did (forget did w) = queryOutcomes this did w ∧
  env (afterQueries this did (forget did w)) = env (afterQueries this did w).
Proof.
  unfold queryOutcomes, afterQueries, didResponses.
  destruct (allSettled_getDidFromPool_env did (pools this)
              (cache_get (cacheKey did) (forget did w)).1
              (cache_get (cacheKey did) w).1) as [-> ->]; done.
Qed.

Lemma cacheHit_forget this did w : cacheHit this did (forget did w) = None.
Proof. unfold cacheHit, forget. simpl. by rewrite lookup_delete_eq. Qed.

Lemma cacheHit_stale this did w cached :
  cache w !! cacheKey did = Some cached →
  (∀ pool, pool ∈ pools this → pool_id pool ≠ poolId cached) →
  cacheHit this did w = None.
Proof.
  intros Hc Hstale. unfold cacheHit. rewrite Hc, find_none_bool; [done|].
  intros pool Hp. apply bool_decide_eq_false_2. by apply Hstale.
Qed.

Lemma find_some_exists {A} (f : A → bool) (l : list A) :
  (∃ x, x ∈ l ∧ f x = true) → ∃ x, List.find f l = Some x ∧ x ∈ l ∧ f x = true.
Proof.
  induction l as [|y l IH]; intros (x & Hx & Hf).
  - by apply elem_of_nil in Hx.
  - simpl. destruct (f y) eqn:Hy.
    + exists y. split; [done|]. split; [apply elem_of_cons; by left|done].
    + destruct IH as (z & Hz & Hzl & Hzf).
      * exists x. split; [|done]. apply elem_of_cons in Hx as [->|Hx]; [congruence|done].
      * exists z. split; [done|]. split; [apply elem_of_cons; by right|done].
Qed.

Lemma readQueries_app tr1 tr2 :
  readQueries (tr1 ++ tr2) = readQueries tr1 ++ readQueries tr2.
Proof. apply omap_app. Qed.

Lemma readQueries_queryEvents this did :
  readQueries (queryEvents this did)
    = match indySdk_buildGetNymRequest did with
      | Ok request => map (λ pool, (pool, request)) (pools this)
      | Throw _ => []
      end.
Proof.
  unfold queryEvents. destruct (indySdk_buildGetNymRequest did) as [request|]; [|done].
  unfold readQueries.
  induction (pools this) as [|p ps IH]; simpl; [done|]. by f_equal.
Qed.

(** C4.  With an entry for the DID in the cache: if its [poolId] is the id
    of a configured pool, [getPoolForDid] returns the cached record with
    that pool and does nothing but read the cache; if no configured pool
    has that id, the call proceeds as from a world without the entry, and
    every configured pool is queried, in the order of the registry. *)
Theorem getPoolForDid_cache this ctx did w cached :
  cache w !! cacheKey did = Some cached →
  ((∃ pool, pool ∈ pools this ∧ pool_id pool = poolId cached) →
   ∃ pool,
     List.find (λ p, bool_decide (pool_id p = poolId cached)) (pools this)
       = Some pool ∧
     pool ∈ pools this ∧ pool_id pool = poolId cached ∧
     (getPoolForDid this ctx did w).2
       = Ok {| res_pool := pool; res_did := nymResponse cached |} ∧
     trace (getPoolForDid this ctx did w).1
       = trace w ++ [EvCacheGet (cacheKey did)] ∧
     env (getPoolForDid this ctx did w).1 = env w ∧
     cache (getPoolForDid this ctx did w).1 = cache w)
  ∧ ((∀ pool, pool ∈ pools this → pool_id pool ≠ poolId cached) →
     (getPoolForDid this ctx did w).2
       = (getPoolForDid this ctx did (forget did w)).2 ∧
     trace (getPoolForDid this ctx did w).1
       = trace (getPoolForDid this ctx did (forget did w)).1 ∧
     env (getPoolForDid this ctx did w).1
       = env (getPoolForDid this ctx did (forget did w)).1 ∧
     readQueries (trace (getPoolForDid this ctx did w).1)
       = readQueries (trace w) ++
         match indySdk_buildGetNymRequest did with
         | Ok request => map (λ pool, (pool, request)) (pools this)
         | Throw _ => []
         end).
Proof.
  intros Hc. split.
  - intros (pool & Hpool & Hid).
    destruct (find_some_exists (λ p, bool_decide (pool_id p = poolId cached))
                (pools this)) as (p & Hfind & Hp & Hpid).
    { exists pool. split; [done|]. by apply bool_decide_eq_true_2. }
    apply bool_decide_eq_true_1 in Hpid.
    exists p. rewrite getPoolForDid_run by (intros Hnil; rewrite Hnil in Hp; set_solver).
    unfold cacheHit. rewrite Hc, Hfind. done.
  - intros Hstale.
    destruct (decide (pools this = [])) as [Hnil|Hne].
    { unfold getPoolForDid. rewrite Hnil. simpl. unfold throw. simpl.
      destruct (indySdk_buildGetNymRequest did); by rewrite app_nil_r. }
    pose proof (cacheHit_stale _ _ _ _ Hc Hstale) as Hmiss.
    pose proof (cacheHit_forget this did w) as Hmiss'.
    destruct (getPoolForDid_miss_world this ctx did w Hne Hmiss) as (He & _ & Hw).
    destruct (getPoolForDid_miss_world this ctx did (forget did w) Hne Hmiss')
      as (He' & _ & Hw').
    destruct (queryOutcomes_forget this did w) as [Hrs Henv].
    assert ((getPoolForDid this ctx did w).2
            = (getPoolForDid this ctx did (forget did w)).2) as Hres.
    { rewrite !getPoolForDid_run, Hmiss, Hmiss' by done. cbv zeta. rewrite Hrs.
      destruct (length _ =? 0)%nat; [done|]. by destruct (choose _). }
    rewrite <- Hres in Hw'. split; [done|].
    destruct (getPoolForDid this ctx did w).2 as [res|e];
      destruct Hw as [_ Ht]; destruct Hw' as [_ Ht'];
      (split; [by rewrite Ht, Ht'|]); (split; [congruence|]);
      rewrite Ht, readQueries_app;
      change (EvCacheGet (cacheKey did) :: ?l) with ([EvCacheGet (cacheKey did)] ++ l);
      rewrite !readQueries_app, readQueries_queryEvents; simpl;
      by rewrite ?app_nil_r.
Qed.
End Resolution.

(** * Write coordinator *)

Section Write.
Context `{Collaborators}.

Lemma translateError_idem e : translateError (translateError e) = translateError e.
Proof. unfold translateError. by destruct e. Qed.

(** ** The memoised agreement *)

(** Once the field is set, [getTransactionAuthorAgreement] returns it and
    touches nothing. *)
Lemma getTransactionAuthorAgreement_memo pool w v :
  authorAgreementOf w !! pool_ref pool = Some v →
  getTransactionAuthorAgreement pool w = (w, Ok v).
Proof.
  intros Hv. unfold getTransactionAuthorAgreement. unfold_monad. by rewrite Hv.
Qed.

(** With the field not yet set, a call that returns has sent the two read
    queries, in this order, and has stored what it returns; a call that
    fails has stored nothing. *)
Lemma getTransactionAuthorAgreement_fetch pool w w' r :
  authorAgreementOf w !! pool_ref pool = None →
  getTransactionAuthorAgreement pool w = (w', r) →
  cache w' = cache w ∧
  ∃ evs,
    trace w' = trace w ++ evs ∧
    Forall (λ ev, ∃ request, ev = EvSubmitRead pool request) evs ∧
    match r with
    | Ok v =>
        ∃ taaRequest amRequest e1 taaResponse amResponse,
          indySdk_buildGetTxnAuthorAgreementRequest = Ok taaRequest ∧
          indySdk_buildGetAcceptanceMechanismsRequest = Ok amRequest ∧
          pool_submitReadRequest pool taaRequest (env w) = (e1, Ok taaResponse) ∧
          pool_submitReadRequest pool amRequest e1 = (env w', Ok amResponse) ∧
          evs = [EvSubmitRead pool taaRequest; EvSubmitRead pool amRequest] ∧
          v = snapshotOf taaResponse amResponse ∧
          authorAgreementOf w' = <[pool_ref pool := v]> (authorAgreementOf w)
    | Throw _ => authorAgreementOf w' = authorAgreementOf w
    end.
Proof.
  intros Hv. unfold getTransactionAuthorAgreement, submitReadRequest, pool_read.
  unfold_monad. rewrite Hv. simpl.
  destruct indySdk_buildGetTxnAuthorAgreementRequest as [taaRequest|e0]; simpl.
  2:{ intros; simplify_eq. split; [done|]. exists []. by rewrite app_nil_r. }
  destruct (pool_submitReadRequest pool taaRequest (env w))
    as [e1 [taaResponse|e]] eqn:H1; simpl.
  2:{ intros; simplify_eq. split; [done|]. eexists [_]. simpl.
      split; [done|]. split; [|done]. repeat constructor. eauto. }
  destruct indySdk_buildGetAcceptanceMechanismsRequest as [amRequest|e0]; simpl.
  2:{ intros; simplify_eq. split; [done|]. eexists [_]. simpl.
      split; [done|]. split; [|done]. repeat constructor. eauto. }
  destruct (pool_submitReadRequest pool amRequest e1)
    as [e2 [amResponse|e]] eqn:H2; simpl.
  2:{ intros; simplify_eq. split; [done|]. eexists [_; _]. simpl.
      rewrite <- app_assoc. split; [done|]. split; [|done].
      repeat constructor; eauto. }
  unfold snapshotOf.
  destruct (result_data taaResponse) as [authorAgreement|] eqn:Hd; simpl;
    intros; simplify_eq; (split; [done|]); eexists [_; _]; simpl;
    rewrite <- app_assoc; (split; [done|]); (split; [repeat constructor; eauto|]);
    exists taaRequest, amRequest, e1, taaResponse, amResponse; simpl;
    rewrite Hd; done.
Qed.

(** ** [appendTaa] and [submitWriteRequest], step by step *)

Lemma appendTaa_run pool request w :
  appendTaa pool request w =
    let '(w1, r1) := getTransactionAuthorAgreement pool w in
    match r1 with
    | Throw e => (w1, Throw (translateError e))
    | Ok None => (w1, Ok request)
    | Ok (Some authorAgreement) =>
        match transactionAuthorAgreement (config pool) with
        | None =>
            (w1, Throw (IndySdkPoolError (specifyTaaMessage authorAgreement) None))
        | Some taa =>
            match acceptanceMechanisms authorAgreement with
            | None => (w1, Throw TypeError)
            | Some mechanisms =>
                if taaMismatch taa authorAgreement mechanisms then
                  (w1, Throw (IndySdkPoolError
                                (mismatchMessage taa authorAgreement mechanisms) None))
                else
                  let time := (Date_getTime (env w1) `div` 1000)%Z in
                  (withEvents w1 (env w1)
                     [EvAppendTaa request (text authorAgreement) (taa_version taa)
                        (digest authorAgreement) (taa_acceptanceMechanism taa) time],
                   translated
                     (indySdk_appendTxnAuthorAgreementAcceptanceToRequest
                        request (text authorAgreement) (taa_version taa)
                        (digest authorAgreement) (taa_acceptanceMechanism taa) time))
            end
        end
    end.
Proof.
  unfold appendTaa, taaMismatch, currentTimeSeconds, withEvents, translated.
  unfold mbind, M_bind, bind, try_catch, throw, ret, mret, M_ret, lift, emit, get_env.
  destruct (getTransactionAuthorAgreement pool w) as [w1 [[a|]|e]]; [|done..].
  destruct (transactionAuthorAgreement (config pool)) as [taa|]; [|done].
  destruct (acceptanceMechanisms a) as [m|]; [|done].
  destruct (_ || _); [done|]. simpl.
  by destruct (indySdk_appendTxnAuthorAgreementAcceptanceToRequest _ _ _ _ _ _).
Qed.

Lemma submitWriteRequest_run agentContext pool request signDid w :
  submitWriteRequest agentContext pool request signDid w =
    let '(w1, r1) := appendTaa pool request w in
    match r1 with
    | Throw e => (w1, Throw (translateError e))
    | Ok requestWithTaa => signAndSubmit agentContext pool requestWithTaa signDid w1
    end.
Proof.
  unfold submitWriteRequest, signAndSubmit, signRequest, pool_write, withEvents,
    translated.
  unfold mbind, M_bind, bind, try_catch, throw, ret, mret, M_ret, lift, emit, call.
  destruct (appendTaa pool request w) as [w1 [requestWithTaa|e]]; [|done].
  destruct (assertIndySdkWallet _) as [[]|e]; [|done].
  destruct (wallet_handle _) as [handle|e]; [|by rewrite translateError_idem].
  simpl.
  destruct (indySdk_signRequest _ _ _ _) as [e2 [signed|e]]; simpl; [|done].
  destruct (pool_submitWriteRequest _ _ _) as [e3 [response|e]]; simpl;
    by rewrite <- app_assoc.
Qed.

(** After the agreement is resolved, a write sends no read query, writes
    neither the cache nor any memoised agreement. *)
Lemma submitWriteRequest_after_fetch agentContext pool request signDid w w1 r1 :
  getTransactionAuthorAgreement pool w = (w1, r1) →
  ∃ evs,
    trace (submitWriteRequest agentContext pool request signDid w).1
      = trace w1 ++ evs ∧
    readQueries evs = [] ∧
    cacheWrites evs = [] ∧
    authorAgreementOf (submitWriteRequest agentContext pool request signDid w).1
      = authorAgreementOf w1 ∧
    cache (submitWriteRequest agentContext pool request signDid w).1 = cache w1.
Proof.
  intros Hf. rewrite submitWriteRequest_run, appendTaa_run, Hf.
  assert (∀ req w2, authorAgreementOf w2 = authorAgreementOf w1 →
            cache w2 = cache w1 →
            (∃ evs0, trace w2 = trace w1 ++ evs0 ∧ readQueries evs0 = []
                     ∧ cacheWrites evs0 = []) →
            ∃ evs,
              trace (signAndSubmit agentContext pool req signDid w2).1
                = trace w1 ++ evs ∧
              readQueries evs = [] ∧ cacheWrites evs = [] ∧
              authorAgreementOf (signAndSubmit agentContext pool req signDid w2).1
                = authorAgreementOf w1 ∧
              cache (signAndSubmit agentContext pool req signDid w2).1 = cache w1)
    as Hsign.
  { intros req w2 Ha Hc (evs0 & Ht & Hr0 & Hc0). unfold signAndSubmit.
    destruct (assertIndySdkWallet _) as [[]|e]; [|by exists evs0].
    destruct (wallet_handle _) as [handle|e]; [|by exists evs0].
    destruct (indySdk_signRequest _ _ _ _) as [e2 [signed|e]].
    - destruct (pool_submitWriteRequest _ _ _) as [e3 r3]. simpl.
      eexists (evs0 ++ [_; _]). rewrite Ht, <- app_assoc.
      unfold readQueries, cacheWrites in *. rewrite !omap_app, Hr0, Hc0. done.
    - simpl. eexists (evs0 ++ [_]). rewrite Ht, <- app_assoc.
      unfold readQueries, cacheWrites in *. rewrite !omap_app, Hr0, Hc0. done. }
  assert (∃ evs0, trace w1 = trace w1 ++ evs0 ∧ readQueries evs0 = []
                  ∧ cacheWrites evs0 = []) as Hnil
    by (exists []; by rewrite app_nil_r).
  destruct r1 as [[a|]|e]; [| by apply Hsign | exists []; by rewrite app_nil_r].
  destruct (transactionAuthorAgreement (config pool)) as [taa|];
    [|exists []; by rewrite app_nil_r].
  destruct (acceptanceMechanisms a) as [m|]; [|exists []; by rewrite app_nil_r].
  destruct (taaMismatch taa a m); [exists []; by rewrite app_nil_r|].
  cbv zeta.
  destruct (indySdk_appendTxnAuthorAgreementAcceptanceToRequest _ _ _ _ _ _)
    as [requestWithTaa|e]; simpl.
  - apply Hsign; [done..|]. eexists [_]. done.
  - eexists [_]. done.
Qed.

(** A write leaves the cache alone; the read queries it sends go to its
    own pool, and only while that pool's agreement is not yet memoised; an
    agreement that is memoised stays as it is. *)
Lemma submitWriteRequest_frame agentContext pool request signDid w :
  cache (submitWriteRequest agentContext pool request signDid w).1 = cache w ∧
  (∀ ref v, authorAgreementOf w !! ref = Some v →
     authorAgreementOf (submitWriteRequest agentContext pool request signDid w).1
       !! ref = Some v) ∧
  ∃ evs,
    trace (submitWriteRequest agentContext pool request signDid w).1
      = trace w ++ evs ∧
    cacheWrites evs = [] ∧
    ∀ q req, (q, req) ∈ readQueries evs →
      q = pool ∧ authorAgreementOf w !! pool_ref pool = None.
Proof.
  destruct (getTransactionAuthorAgreement pool w) as [w1 r1] eqn:Hf.
  destruct (submitWriteRequest_after_fetch agentContext pool request signDid
              w w1 r1 Hf) as (evs2 & Ht & Hr & Hcw & Ha & Hc).
  destruct (authorAgreementOf w !! pool_ref pool) as [v0|] eqn:Hmemo.
  - rewrite (getTransactionAuthorAgreement_memo _ _ _ Hmemo) in Hf. simplify_eq.
    split; [done|]. split; [intros ref v Hv; by rewrite Ha|].
    exists evs2. split; [done|]. split; [done|]. rewrite Hr. intros q req Hq.
    by apply elem_of_nil in Hq.
  - apply getTransactionAuthorAgreement_fetch in Hf as (Hc1 & evs1 & Ht1 & Hall & Hres);
      [|done].
    split; [congruence|]. split.
    + intros ref v Hv. rewrite Ha. destruct r1 as [v1|e]; [|by rewrite Hres].
      destruct Hres as (? & ? & ? & ? & ? & _ & _ & _ & _ & _ & _ & ->).
      rewrite lookup_insert_ne; [done|]. intros <-. congruence.
    + exists (evs1 ++ evs2). rewrite Ht, Ht1, <- app_assoc. split; [done|].
      unfold cacheWrites, readQueries in *. rewrite !omap_app, Hcw, Hr, !app_nil_r.
      split.
      * clear -Hall. induction Hall as [|ev evs [req ->] _ IH]; [done|]. by simpl.
      * intros q req Hq. split; [|done].
        clear -Hall Hq. induction Hall as [|ev evs [req' ->] _ IH].
        { by apply elem_of_nil in Hq. }
        simpl in Hq. apply elem_of_cons in Hq as [?|?]; [by simplify_eq|by apply IH].
Qed.

(** ** Writes, one after the other *)

Lemma submitWrites_memo calls w ref v :
  authorAgreementOf w !! ref = Some v →
  authorAgreementOf (submitWrites calls w) !! ref = Some v ∧
  ∃ evs,
    trace (submitWrites calls w) = trace w ++ evs ∧
    ∀ q req, (q, req) ∈ readQueries evs → pool_ref q ≠ ref.
Proof.
  revert w. induction calls as [|c rest IH]; intros w Hv; simpl.
  - split; [done|]. exists []. rewrite app_nil_r. split; [done|].
    intros q req Hq. by apply elem_of_nil in Hq.
  - destruct (submitWriteRequest_frame (call_context c) (call_pool c)
                (call_request c) (call_signDid c) w)
      as (_ & Hkeep & evs1 & Ht1 & _ & Hreads).
    destruct (IH _ (Hkeep _ _ Hv)) as (Hv' & evs2 & Ht2 & Hreads2).
    split; [done|]. exists (evs1 ++ evs2). rewrite Ht2, Ht1, <- app_assoc.
    split; [done|]. intros q req Hq. rewrite readQueries_app in Hq.
    apply elem_of_app in Hq as [Hq|Hq]; [|by eapply Hreads2].
    apply Hreads in Hq as [-> Hnone]. intros Href. rewrite Href in Hnone. congruence.
Qed.

(** A fetch sends at most two read queries, all of them to its pool. *)
Lemma getTransactionAuthorAgreement_fetch_reads pool w w' r :
  authorAgreementOf w !! pool_ref pool = None →
  getTransactionAuthorAgreement pool w = (w', r) →
  ∃ evs,
    trace w' = trace w ++ evs ∧
    (length evs ≤ 2)%nat ∧
    Forall (λ ev, ∃ request, ev = EvSubmitRead pool request) evs.
Proof.
  intros Hv. unfold getTransactionAuthorAgreement, submitReadRequest, pool_read.
  unfold_monad. rewrite Hv. simpl.
  destruct indySdk_buildGetTxnAuthorAgreementRequest as [taaRequest|e0]; simpl.
  2:{ intros; simplify_eq. exists []. rewrite app_nil_r. split; [done|].
      split; [simpl; lia|constructor]. }
  destruct (pool_submitReadRequest pool taaRequest (env w))
    as [e1 [taaResponse|e]]; simpl.
  2:{ intros; simplify_eq. eexists [_]. split; [done|].
      split; [simpl; lia|repeat constructor; eauto]. }
  destruct indySdk_buildGetAcceptanceMechanismsRequest as [amRequest|e0]; simpl.
  2:{ intros; simplify_eq. eexists [_]. split; [done|].
      split; [simpl; lia|repeat constructor; eauto]. }
  destruct (pool_submitReadRequest pool amRequest e1) as [e2 [amResponse|e]]; simpl.
  2:{ intros; simplify_eq. eexists [_; _]. rewrite <- app_assoc. split; [done|].
      split; [simpl; lia|repeat constructor; eauto]. }
  destruct (result_data taaResponse); simpl; intros; simplify_eq;
    eexists [_; _]; rewrite <- app_assoc; (split; [done|]);
    (split; [simpl; lia|repeat constructor; eauto]).
Qed.

(** C7, as the code has it, for writes that run one after the other.  The
    agreement of a pool is fetched while its memoised field is not yet set,
    and never after.  Once the field holds a value, be it an agreement or
    the mark that the ledger has none, every later write, against this pool
    or another, keeps the value and sends this pool no read query.  While
    the field is unset, a write whose fetch returns sends exactly the two
    read queries, for the agreement and for the acceptance mechanisms, and
    sets the field to the snapshot built from the two replies, which is the
    absent mark when the agreement payload is empty.  A write whose fetch
    fails has sent at most two read queries, fails with the error of the
    fetch, and leaves the field unset: the next write fetches again. *)
Theorem taa_snapshot_fetched_once pool w :
  (∀ v calls,
     authorAgreementOf w !! pool_ref pool = Some v →
     authorAgreementOf (submitWrites calls w) !! pool_ref pool = Some v ∧
     ∃ evs,
       trace (submitWrites calls w) = trace w ++ evs ∧
       ∀ q req, (q, req) ∈ readQueries evs → pool_ref q ≠ pool_ref pool)
  ∧ (authorAgreementOf w !! pool_ref pool = None →
     ∀ agentContext request signDid w1 v,
       getTransactionAuthorAgreement pool w = (w1, Ok v) →
       ∃ taaRequest amRequest e1 taaResponse amResponse evs,
         indySdk_buildGetTxnAuthorAgreementRequest = Ok taaRequest ∧
         indySdk_buildGetAcceptanceMechanismsRequest = Ok amRequest ∧
         pool_submitReadRequest pool taaRequest (env w) = (e1, Ok taaResponse) ∧
         pool_submitReadRequest pool amRequest e1 = (env w1, Ok amResponse) ∧
         v = snapshotOf taaResponse amResponse ∧
         (result_data taaResponse = None → v = None) ∧
         trace (submitWriteRequest agentContext pool request signDid w).1
           = trace w ++ evs ∧
         readQueries evs = [(pool, taaRequest); (pool, amRequest)] ∧
         authorAgreementOf (submitWriteRequest agentContext pool request signDid w).1
           !! pool_ref pool = Some v)
  ∧ (authorAgreementOf w !! pool_ref pool = None →
     ∀ agentContext request signDid w1 e,
       getTransactionAuthorAgreement pool w = (w1, Throw e) →
       submitWriteRequest agentContext pool request signDid w
         = (w1, Throw (translateError e)) ∧
       authorAgreementOf w1 = authorAgreementOf w ∧
       authorAgreementOf w1 !! pool_ref pool = None ∧
       ∃ evs,
         trace w1 = trace w ++ evs ∧
         (length evs ≤ 2)%nat ∧
         Forall (λ ev, ∃ request, ev = EvSubmitRead pool request) evs).
Proof.
  split; [|split].
  - intros v calls Hv. by apply submitWrites_memo.
  - intros Hnone agentContext request signDid w1 v Hf.
    destruct (submitWriteRequest_after_fetch agentContext pool request signDid
                w w1 _ Hf) as (evs2 & Ht & Hr & _ & Ha & _).
    apply getTransactionAuthorAgreement_fetch in Hf
      as (_ & evs1 & Ht1 & _ & taaRequest & amRequest & e1 & taaResponse
          & amResponse & Hb1 & Hb2 & Hr1 & Hr2 & -> & -> & Hmemo); [|done].
    exists taaRequest, amRequest, e1, taaResponse, amResponse,
      ([EvSubmitRead pool taaRequest; EvSubmitRead pool amRequest] ++ evs2).
    repeat (split; [done|]).
    split; [unfold snapshotOf; by intros ->|].
    split; [by rewrite Ht, Ht1, <- app_assoc|].
    split; [by rewrite readQueries_app, Hr|].
    by rewrite Ha, Hmemo, lookup_insert_eq.
  - intros Hnone agentContext request signDid w1 e Hf.
    split; [by rewrite submitWriteRequest_run, appendTaa_run, Hf, translateError_idem|].
    pose proof Hf as Hf'.
    apply getTransactionAuthorAgreement_fetch in Hf' as (_ & _ & _ & _ & Ha); [|done].
    split; [done|]. split; [by rewrite Ha|].
    by eapply getTransactionAuthorAgreement_fetch_reads.
Qed.

(** ** Agreement and acceptance *)

Lemma taaMismatch_version taa authorAgreement mechanisms :
  version authorAgreement ≠ taa_version taa →
  taaMismatch taa authorAgreement mechanisms = true.
Proof. intros Hv. unfold taaMismatch. by rewrite bool_decide_eq_false_2. Qed.

Lemma taaMismatch_mechanism taa authorAgreement mechanisms :
  taa_acceptanceMechanism taa ∉ Object_keys (aml mechanisms) →
  taa_acceptanceMechanism taa ∉ Object_prototype_properties →
  taaMismatch taa authorAgreement mechanisms = true.
Proof.
  intros Hk Hp. unfold taaMismatch, js_in.
  rewrite !(bool_decide_eq_false_2 (_ ∈ _)) by done. simpl. apply orb_true_r.
Qed.

(** When the test of [appendTaa] finds a mismatch, the write fails with
    the error that reports the configured and the found values, in the
    world the fetch left: nothing is signed, nothing is submitted. *)
Lemma submitWriteRequest_taa_mismatch agentContext pool request signDid w w1
    authorAgreement mechanisms taa :
  getTransactionAuthorAgreement pool w = (w1, Ok (Some authorAgreement)) →
  transactionAuthorAgreement (config pool) = Some taa →
  acceptanceMechanisms authorAgreement = Some mechanisms →
  taaMismatch taa authorAgreement mechanisms = true →
  submitWriteRequest agentContext pool request signDid w
    = (w1, Throw (IndySdkPoolError
                    (mismatchMessage taa authorAgreement mechanisms) None)).
Proof.
  intros Hf Htaa Hm Hmis.
  by rewrite submitWriteRequest_run, appendTaa_run, Hf, Htaa, Hm, Hmis.
Qed.

(** The fetch itself neither signs nor submits a write. *)
Lemma getTransactionAuthorAgreement_reads_only pool w w1 r :
  getTransactionAuthorAgreement pool w = (w1, r) →
  ∃ evs, trace w1 = trace w ++ evs ∧
         signedRequests evs = [] ∧ writeSubmissions evs = [] ∧ taaAppends evs = [].
Proof.
  intros Hf. destruct (authorAgreementOf w !! pool_ref pool) as [v|] eqn:Hmemo.
  - rewrite (getTransactionAuthorAgreement_memo _ _ _ Hmemo) in Hf. simplify_eq.
    exists []. by rewrite app_nil_r.
  - apply getTransactionAuthorAgreement_fetch in Hf as (_ & evs & Ht & Hall & _);
      [|done].
    exists evs. split; [done|]. clear -Hall.
    induction Hall as [|ev evs [req ->] _ IH]; [done|].
    unfold signedRequests, writeSubmissions, taaAppends in *. by simpl.
Qed.

(** C8, as the code has it.  When the pool has no agreement, no acceptance
    is appended: the request handed to the signing collaborator is the
    caller's request, and what is submitted to the pool is what signing
    that request returned.  With a usable wallet and a signature, the
    write signs once, submits once, and returns the pool's answer. *)
Theorem submitWriteRequest_without_taa agentContext pool request signDid w w1 :
  getTransactionAuthorAgreement pool w = (w1, Ok None) →
  ∃ evs,
    trace (submitWriteRequest agentContext pool request signDid w).1
      = trace w1 ++ evs ∧
    taaAppends evs = [] ∧
    (∀ r, r ∈ signedRequests evs → r = request) ∧
    (∀ q r, (q, r) ∈ writeSubmissions evs →
       q = pool ∧
       ∃ handle e, (indySdk_signRequest handle signDid request e).2 = Ok r) ∧
    (∀ handle e2 signed,
       assertIndySdkWallet (wallet agentContext) = Ok tt →
       wallet_handle (wallet agentContext) = Ok handle →
       indySdk_signRequest handle signDid request (env w1) = (e2, Ok signed) →
       evs = [EvSignRequest handle signDid request; EvSubmitWrite pool signed] ∧
       (submitWriteRequest agentContext pool request signDid w).2
         = translated (pool_submitWriteRequest pool signed e2).2).
Proof.
  intros Hf. rewrite submitWriteRequest_run, appendTaa_run, Hf.
  unfold signAndSubmit.
  destruct (assertIndySdkWallet _) as [[]|e].
  2:{ exists []. rewrite app_nil_r. repeat split; try done.
      all: intros; by (exfalso; eapply elem_of_nil; eauto). }
  destruct (wallet_handle _) as [handle|e].
  2:{ exists []. rewrite app_nil_r. repeat split; try done.
      all: intros; by (exfalso; eapply elem_of_nil; eauto). }
  destruct (indySdk_signRequest handle signDid request (env w1))
    as [e2 [signed|e]] eqn:Hs.
  - destruct (pool_submitWriteRequest pool signed e2) as [e3 r3] eqn:Hw. simpl.
    eexists [_; _]. split; [done|]. split; [done|]. split; [|split].
    + intros r Hr. unfold signedRequests in Hr. simpl in Hr.
      by apply list_elem_of_singleton in Hr.
    + intros q r Hq. unfold writeSubmissions in Hq. simpl in Hq.
      apply list_elem_of_singleton in Hq. simplify_eq. split; [done|].
      exists handle, (env w1). by rewrite Hs.
    + intros handle' e2' signed' _ ? Hs'. simplify_eq.
      rewrite Hs in Hs'. simplify_eq. by rewrite Hw.
  - simpl. eexists [_]. split; [done|]. split; [done|]. split; [|split].
    + intros r Hr. unfold signedRequests in Hr. simpl in Hr.
      by apply list_elem_of_singleton in Hr.
    + intros q r Hq. unfold writeSubmissions in Hq. simpl in Hq.
      by apply elem_of_nil in Hq.
    + intros handle' e2' signed' _ ? Hs'. simplify_eq.
      rewrite Hs in Hs'. simplify_eq.
Qed.
End Write.

(** * Who writes the cache *)

Section CacheWrites.
Context `{Collaborators}.

Lemma cacheKey_inj did did' : cacheKey did = cacheKey did' → did = did'.
Proof. unfold cacheKey. simpl. intros Heq. by simplify_eq. Qed.

Lemma cacheWrites_app tr1 tr2 :
  cacheWrites (tr1 ++ tr2) = cacheWrites tr1 ++ cacheWrites tr2.
Proof. apply omap_app. Qed.

Lemma cacheWrites_queryEvents this did : cacheWrites (queryEvents this did) = [].
Proof.
  unfold queryEvents, cacheWrites.
  destruct (indySdk_buildGetNymRequest did) as [request|]; [|done].
  by induction (pools this) as [|p ps IH].
Qed.

(** What one call of [getPoolForDid] does to the cache. *)
Lemma getPoolForDid_cache_effect this ctx did w :
  ∃ evs,
    trace (getPoolForDid this ctx did w).1 = trace w ++ evs ∧
    match (getPoolForDid this ctx did w).2, cacheHit this did w with
    | Ok res, None =>
        cache (getPoolForDid this ctx did w).1
          = <[cacheKey did := cacheEntry res]> (cache w) ∧
        cacheWrites evs = [(cacheKey did, cacheEntry res)]
    | _, _ =>
        cache (getPoolForDid this ctx did w).1 = cache w ∧
        cacheWrites evs = []
    end.
Proof.
  destruct (decide (pools this = [])) as [Hnil|Hne].
  { unfold getPoolForDid. rewrite Hnil. simpl. exists []. by rewrite app_nil_r. }
  destruct (cacheHit this did w) as [hit|] eqn:Hhit.
  - rewrite getPoolForDid_run, Hhit by done. simpl.
    eexists [_]. split; [done|]. done.
  - destruct (getPoolForDid_miss_world this ctx did w Hne Hhit) as (_ & _ & Hw).
    destruct (getPoolForDid this ctx did w).2 as [res|e]; destruct Hw as [Hc Ht].
    + eexists. split; [exact Ht|]. split; [done|].
      change (EvCacheGet (cacheKey did) :: ?l) with ([EvCacheGet (cacheKey did)] ++ l).
      by rewrite !cacheWrites_app, cacheWrites_queryEvents.
    + eexists. split; [exact Ht|]. split; [done|].
      change (EvCacheGet (cacheKey did) :: ?l) with ([EvCacheGet (cacheKey did)] ++ l).
      by rewrite !cacheWrites_app, cacheWrites_queryEvents.
Qed.

(** C9.  [getPoolForDid] writes the cache in one case only: the cache did
    not answer and the queries produced a result; it then stores that
    result under the key of the DID, once.  On a cache hit and on every
    failure it writes nothing and the cache is as before.  Entries of
    other DIDs are never touched, and neither connecting nor writing to a
    ledger touches the cache. *)
Theorem cache_written_only_by_fresh_resolution this ctx did w :
  (∃ evs,
     trace (getPoolForDid this ctx did w).1 = trace w ++ evs ∧
     match (getPoolForDid this ctx did w).2, cacheHit this did w with
     | Ok res, None =>
         cache (getPoolForDid this ctx did w).1
           = <[cacheKey did := cacheEntry res]> (cache w) ∧
         cacheWrites evs = [(cacheKey did, cacheEntry res)]
     | _, _ =>
         cache (getPoolForDid this ctx did w).1 = cache w ∧
         cacheWrites evs = []
     end)
  ∧ (∀ did', did' ≠ did →
       cache (getPoolForDid this ctx did w).1 !! cacheKey did'
         = cache w !! cacheKey did')
  ∧ cache (connectToPools this w).1 = cache w
  ∧ (∀ pool request signDid,
       cache (submitWriteRequest ctx pool request signDid w).1 = cache w).
Proof.
  split; [apply getPoolForDid_cache_effect|]. split; [|split].
  - intros did' Hne.
    destruct (getPoolForDid_cache_effect this ctx did w) as (evs & _ & Heff).
    destruct (getPoolForDid this ctx did w).2 as [res|e];
      [destruct (cacheHit this did w)|]; destruct Heff as [-> _]; try done.
    apply lookup_insert_ne. intros Heq. by apply cacheKey_inj in Heq.
  - unfold connectToPools.
    destruct (connectToPools_loop (pools this) [] w) as [w' r] eqn:Hrun.
    by apply connectToPools_loop_run in Hrun as (_ & _ & Hc & _).
  - intros pool request signDid. apply submitWriteRequest_frame.
Qed.
End CacheWrites.

(** * More on resolution *)

Section ResolutionMore.
Context `{Collaborators}.

Lemma find_some_elem {A} (f : A → bool) (l : list A) (x : A) :
  List.find f l = Some x → x ∈ l ∧ f x = true.
Proof.
  induction l as [|y l IH]; simpl; [done|].
  destruct (f y) eqn:Hy.
  - intros; simplify_eq. split; [apply elem_of_cons; by left|done].
  - intros Hf. destruct (IH Hf) as [Hin Hx]. split; [apply elem_of_cons; by right|done].
Qed.

Lemma filter_negb_all {A} (f : A → bool) (l : list A) :
  List.filter f l = [] → List.filter (λ x, negb (f x)) l = l.
Proof.
  induction l as [|y l IH]; simpl; [done|].
  destruct (f y); simpl; [done|]. intros Hl. by rewrite IH.
Qed.

Lemma filter_head_elem {A} (f : A → bool) (l : list A) (x : A) (tl : list A) :
  List.filter f l = x :: tl → x ∈ l.
Proof.
  intros Hf. apply list_elem_of_In. eapply proj1, filter_In.
  rewrite Hf. by left.
Qed.

(** The preference never runs out of candidates: from a list of successes
    that is not empty it picks one of them. *)
Lemma choose_picks_a_success (l : list (PromiseFulfilledResult PublicDidRequest)) :
  l ≠ [] → ∃ r, r ∈ l ∧ choose l = Ok (value r).
Proof.
  intros Hne. unfold choose.
  destruct (List.find _ l) as [r|] eqn:Hfind; simpl.
  - exists r. split; [|done]. by eapply find_some_elem.
  - destruct (List.filter (λ s, isProduction _) l) as [|r tl] eqn:Hprod; simpl.
    + rewrite (filter_negb_all _ _ Hprod).
      destruct l as [|r l]; [done|]. exists r. split; [apply elem_of_cons; by left|done].
    + exists r. split; [|done]. by eapply filter_head_elem.
Qed.

Lemma elem_of_onlyFulfilled {A} (rs : list (PromiseSettledResult A)) r :
  r ∈ onlyFulfilled rs ↔ ∃ j, rs !! j = Some (Fulfilled r).
Proof.
  induction rs as [|o rs IH]; simpl.
  - split; [intros Hin; by apply elem_of_nil in Hin|intros [j Hj]; done].
  - destruct o as [r0|e0].
    + rewrite elem_of_cons, IH. split.
      * intros [->|[j Hj]]; [by exists 0|by exists (S j)].
      * intros [[|j] Hj]; simpl in Hj; [left; by simplify_eq|right; by exists j].
    + rewrite IH. split.
      * intros [j Hj]. by exists (S j).
      * intros [[|j] Hj]; simpl in Hj; [done|by exists j].
Qed.

Lemma onlyFulfilled_nil_allRejected rs :
  onlyFulfilled rs = [] → allRejected rs.
Proof.
  intros Hnil i o Hi. destruct o as [r|[e]]; [|by exists e].
  assert (r ∈ onlyFulfilled rs) as Hin by (apply elem_of_onlyFulfilled; eauto).
  rewrite Hnil in Hin. by apply elem_of_nil in Hin.
Qed.

(** When the cache does not answer and at least one pool answers,
    [getPoolForDid] succeeds, and what it returns is the record and the pool
    of one of the successful answers. *)
Theorem getPoolForDid_succeeds_when_a_pool_answers this ctx did w i v :
  cacheHit this did w = None →
  queryOutcomes this did w !! i = Some (Fulfilled {| value := v |}) →
  ∃ j v',
    queryOutcomes this did w !! j = Some (Fulfilled {| value := v' |}) ∧
    pools this !! j = Some (pdr_pool v') ∧
    (getPoolForDid this ctx did w).2
      = Ok {| res_pool := pdr_pool v'; res_did := pdr_did v' |}.
Proof.
  intros Hmiss Hi.
  rewrite getPoolForDid_run, Hmiss by (by eapply queryOutcomes_registry). cbv zeta.
  assert ({| value := v |} ∈ onlyFulfilled (queryOutcomes this did w)) as Hin
    by (apply elem_of_onlyFulfilled; eauto).
  destruct (choose_picks_a_success (onlyFulfilled (queryOutcomes this did w)))
    as ([v'] & Hr & Hchoose).
  { intros Hnil. rewrite Hnil in Hin. by apply elem_of_nil in Hin. }
  apply elem_of_onlyFulfilled in Hr as [j Hj].
  exists j, v'. split; [done|]. split; [by eapply queryOutcomes_pool|].
  destruct (onlyFulfilled _) as [|r0 l0]; [by apply elem_of_nil in Hin|].
  simpl. by rewrite Hchoose.
Qed.

Lemma getPoolForDid_pool_in_registry this ctx did w res :
  (getPoolForDid this ctx did w).2 = Ok res → res_pool res ∈ pools this.
Proof.
  intros Hres.
  destruct (decide (pools this = [])) as [Hnil|Hne].
  { unfold getPoolForDid in Hres. by rewrite Hnil in Hres. }
  destruct (cacheHit this did w) as [hit|] eqn:Hhit.
  - rewrite getPoolForDid_run, Hhit in Hres by done. simpl in Hres. simplify_eq.
    unfold cacheHit in Hhit.
    destruct (cache w !! cacheKey did) as [cached|]; [|done].
    destruct (List.find _ (pools this)) as [pool|] eqn:Hfind; [|done].
    simplify_eq. simpl. by eapply find_some_elem.
  - rewrite getPoolForDid_run, Hhit in Hres by done. cbv zeta in Hres.
    destruct (onlyFulfilled (queryOutcomes this did w)) as [|r0 l0] eqn:Hs;
      [done|].
    destruct (choose_picks_a_success (r0 :: l0)) as ([v'] & Hr & Hchoose); [done|].
    simpl in Hres. rewrite Hchoose in Hres. simpl in Hres. simplify_eq. simpl.
    rewrite <- Hs in Hr. apply elem_of_onlyFulfilled in Hr as [j Hj].
    eapply list_elem_of_lookup_2, queryOutcomes_pool, Hj.
Qed.


(** The failures of [getPoolForDid]: the configuration error for an empty
    registry; otherwise no pool answered, and the error is the not-found
    error, or an [IndySdkPoolError] that wraps one of the failures that is
    not a not-found outcome.  Indexing the candidates never fails. *)
Theorem getPoolForDid_failures this ctx did w e :
  (getPoolForDid this ctx did w).2 = Throw e →
  (pools this = [] ∧ e = IndySdkPoolNotConfiguredError notConfiguredMessage)
  ∨ (pools this ≠ [] ∧ cacheHit this did w = None ∧
     allRejected (queryOutcomes this did w) ∧
     (e = IndySdkPoolNotFoundError (didNotFoundMessage did (length (pools this)))
      ∨ ∃ message i cause,
          e = IndySdkPoolError message (Some cause) ∧
          queryOutcomes this did w !! i = Some (Rejected {| reason := cause |}) ∧
          instanceof_IndySdkPoolNotFoundError cause = false)).
Proof.
  intros Hres.
  destruct (decide (pools this = [])) as [Hnil|Hne].
  { left. split; [done|]. unfold getPoolForDid in Hres. rewrite Hnil in Hres.
    simpl in Hres. unfold throw in Hres. simpl in Hres. by simplify_eq. }
  right. split; [done|].
  destruct (cacheHit this did w) as [hit|] eqn:Hhit.
  { by rewrite getPoolForDid_run, Hhit in Hres. }
  split; [done|].
  rewrite getPoolForDid_run, Hhit in Hres by done. cbv zeta in Hres.
  destruct (onlyFulfilled (queryOutcomes this did w)) as [|r0 l0] eqn:Hs.
  - pose proof (onlyFulfilled_nil_allRejected _ Hs) as Hall. split; [done|].
    simpl in Hres. simplify_eq. unfold noneSuccessful.
    destruct (forallb _ _) eqn:Hnf; [by left|]. right.
    destruct (List.filter _ (onlyRejected _)) as [|[cause] tl] eqn:Hf.
    + exfalso. apply not_true_iff_false in Hnf. apply Hnf, forallb_forall.
      intros x Hx. destruct (instanceof_IndySdkPoolNotFoundError (reason x)) eqn:Hx'; [done|].
      assert (In x (List.filter
                      (λ e, negb (instanceof_IndySdkPoolNotFoundError (reason e)))
                      (onlyRejected (queryOutcomes this did w)))) as Hin
        by (apply filter_In; by rewrite Hx').
      by rewrite Hf in Hin.
    + assert (In {| reason := cause |}
                (List.filter
                   (λ e, negb (instanceof_IndySdkPoolNotFoundError (reason e)))
                   (onlyRejected (queryOutcomes this did w)))) as Hin
        by (rewrite Hf; by left).
      apply filter_In in Hin as [Hin Hc]. simpl in Hc.
      apply list_elem_of_In, list_elem_of_lookup in Hin as [i Hi].
      eexists _, i, cause. split; [done|].
      split; [by apply allRejected_onlyRejected|by apply negb_true_iff].
  - exfalso. destruct (choose_picks_a_success (r0 :: l0)) as (r & _ & Hchoose); [done|].
    simpl in Hres. by rewrite Hchoose in Hres.
Qed.

Lemma find_unique_id (l : list IndySdkPool) (x : IndySdkPool) :
  NoDup (map pool_id l) → x ∈ l →
  List.find (λ p, bool_decide (pool_id p = pool_id x)) l = Some x.
Proof.
  induction l as [|y l IH]; intros Hnd Hin; [by apply elem_of_nil in Hin|].
  simpl in *. apply NoDup_cons in Hnd as [Hy Hnd].
  apply elem_of_cons in Hin as [->|Hin].
  - by rewrite bool_decide_eq_true_2.
  - rewrite bool_decide_eq_false_2; [by apply IH|].
    intros Heq. apply Hy. rewrite Heq. apply list_elem_of_fmap. by exists x.
Qed.

(** What the cache holds for the DID after a successful [getPoolForDid]: an
    entry with the returned record and the id of the returned pool. *)
Lemma getPoolForDid_cache_after this ctx did w res :
  (getPoolForDid this ctx did w).2 = Ok res →
  ∃ cached,
    cache (getPoolForDid this ctx did w).1 !! cacheKey did = Some cached ∧
    nymResponse cached = res_did res ∧ poolId cached = pool_id (res_pool res).
Proof.
  intros Hres.
  destruct (decide (pools this = [])) as [Hnil|Hne].
  { unfold getPoolForDid in Hres. by rewrite Hnil in Hres. }
  destruct (getPoolForDid_cache_effect this ctx did w) as (evs & _ & Heff).
  rewrite Hres in Heff.
  destruct (cacheHit this did w) as [hit|] eqn:Hhit.
  - destruct Heff as [-> _].
    rewrite getPoolForDid_run, Hhit in Hres by done. simpl in Hres. simplify_eq.
    unfold cacheHit in Hhit.
    destruct (cache w !! cacheKey did) as [cached|]; [|done].
    destruct (List.find _ (pools this)) as [pool|] eqn:Hfind; [|done].
    simplify_eq. exists cached. split; [done|]. split; [done|]. simpl.
    apply find_some_elem in Hfind as [_ Hid]. by apply bool_decide_eq_true_1 in Hid.
  - destruct Heff as [-> _]. exists (cacheEntry res). by rewrite lookup_insert_eq.
Qed.

(** What a successful [getPoolForDid] returns agrees with the registry and
    with the cache it leaves: the pool is a pool of the registry, whether it
    comes from the cache or from the queries, and the cache holds for the
    DID the returned record and the id of the returned pool. *)
Theorem getPoolForDid_returns_configured_pool this ctx did w res :
  (getPoolForDid this ctx did w).2 = Ok res →
  res_pool res ∈ pools this ∧
  ∃ cached,
    cache (getPoolForDid this ctx did w).1 !! cacheKey did = Some cached ∧
    nymResponse cached = res_did res ∧ poolId cached = pool_id (res_pool res).
Proof.
  intros Hres. split.
  - by eapply getPoolForDid_pool_in_registry.
  - by apply getPoolForDid_cache_after.
Qed.

(** Resolving the same DID again, with pool ids that are pairwise distinct:
    the second call returns what the first returned, reads the cache and
    does nothing else; no pool is queried. *)
Theorem getPoolForDid_again_is_a_cache_hit this ctx ctx' did w res :
  NoDup (map pool_id (pools this)) →
  (getPoolForDid this ctx did w).2 = Ok res →
  (getPoolForDid this ctx' did (getPoolForDid this ctx did w).1).2 = Ok res ∧
  trace (getPoolForDid this ctx' did (getPoolForDid this ctx did w).1).1
    = trace (getPoolForDid this ctx did w).1 ++ [EvCacheGet (cacheKey did)] ∧
  env (getPoolForDid this ctx' did (getPoolForDid this ctx did w).1).1
    = env (getPoolForDid this ctx did w).1 ∧
  cache (getPoolForDid this ctx' did (getPoolForDid this ctx did w).1).1
    = cache (getPoolForDid this ctx did w).1.
Proof.
  intros Hnd Hres.
  pose proof (getPoolForDid_pool_in_registry _ _ _ _ _ Hres) as Hin.
  destruct (getPoolForDid_cache_after _ _ _ _ _ Hres) as (cached & Hc & Hn & Hp).
  assert (pools this ≠ []) as Hne by (intros Hnil; rewrite Hnil in Hin; by apply elem_of_nil in Hin).
  rewrite (getPoolForDid_run this ctx') by done.
  unfold cacheHit. rewrite Hc, Hp, (find_unique_id _ _ Hnd Hin), Hn.
  by destruct res.
Qed.

(** The DID is known to exactly one pool: its record is returned, whatever
    the kind of the pool and of the record, and the cache then maps the DID
    to this record and this pool. *)
Theorem getPoolForDid_single_answer this ctx did w i v :
  cacheHit this did w = None →
  queryOutcomes this did w !! i = Some (Fulfilled {| value := v |}) →
  (∀ j o, j ≠ i → queryOutcomes this did w !! j = Some o →
          ∃ e, o = Rejected {| reason := e |}) →
  (getPoolForDid this ctx did w).2
    = Ok {| res_pool := pdr_pool v; res_did := pdr_did v |} ∧
  pools this !! i = Some (pdr_pool v) ∧
  cache (getPoolForDid this ctx did w).1 !! cacheKey did
    = Some {| nymResponse := pdr_did v; poolId := pool_id (pdr_pool v) |}.
Proof.
  intros Hmiss Hi Hothers.
  assert ({| value := v |} ∈ onlyFulfilled (queryOutcomes this did w)) as Hin
    by (apply elem_of_onlyFulfilled; eauto).
  destruct (choose_picks_a_success (onlyFulfilled (queryOutcomes this did w)))
    as ([v'] & Hr & Hchoose).
  { intros Hnil. rewrite Hnil in Hin. by apply elem_of_nil in Hin. }
  apply elem_of_onlyFulfilled in Hr as [j Hj].
  assert (j = i) as ->.
  { destruct (decide (j = i)) as [|Hne]; [done|].
    destruct (Hothers j _ Hne Hj) as [e He]. done. }
  assert ((getPoolForDid this ctx did w).2
          = Ok {| res_pool := pdr_pool v'; res_did := pdr_did v' |}) as Hres.
  { rewrite getPoolForDid_run, Hmiss by (by eapply queryOutcomes_registry). cbv zeta.
    destruct (onlyFulfilled _) as [|r0 l0]; [by apply elem_of_nil in Hin|].
    simpl. by rewrite Hchoose. }
  pose proof (queryOutcomes_pool _ _ _ _ _ Hi) as Hpool.
  rewrite Hi in Hj. simplify_eq.
  split; [done|]. split; [done|].
  destruct (getPoolForDid_cache_effect this ctx did w) as (evs & _ & Heff).
  rewrite Hres, Hmiss in Heff. destruct Heff as [-> _].
  by rewrite lookup_insert_eq.
Qed.

Lemma onlyFulfilled_onlyRejected_length {A} (rs : list (PromiseSettledResult A)) :
  length (onlyFulfilled rs) + length (onlyRejected rs) = length rs.
Proof. induction rs as [|[r|r] rs IH]; simpl; lia. Qed.

(** Querying the pools never fails as a whole: every pool ends up in
    exactly one of the two lists, each successful response carries a pool of
    the list that was queried, and the cache and the memoised agreements are
    left alone. *)
Theorem getSettledDidResponsesFromPools_partitions did ps w :
  ∃ successful rejected,
    (getSettledDidResponsesFromPools did ps w).2 = Ok (successful, rejected) ∧
    length successful + length rejected = length ps ∧
    (∀ r, r ∈ successful → pdr_pool (value r) ∈ ps) ∧
    cache (getSettledDidResponsesFromPools did ps w).1 = cache w ∧
    authorAgreementOf (getSettledDidResponsesFromPools did ps w).1
      = authorAgreementOf w.
Proof.
  unfold getSettledDidResponsesFromPools, mbind, M_bind, bind.
  destruct (allSettled _ w) as [w' r] eqn:Hrun.
  apply allSettled_getDidFromPool_run in Hrun as (rs & -> & Hc & Ha & _ & Hall).
  exists (onlyFulfilled rs), (onlyRejected rs). simpl.
  split; [done|]. split; [|split; [|done]].
  - rewrite onlyFulfilled_onlyRejected_length. symmetry. by eapply Forall2_length.
  - intros r Hr. apply elem_of_onlyFulfilled in Hr as [j Hj].
    destruct (Forall2_lookup_r _ _ _ _ _ Hall Hj) as (pool & Hpool & Heq).
    simpl in Heq. rewrite Heq. by eapply list_elem_of_lookup_2.
Qed.

Lemma didResponses_cons did pool rest w :
  didResponses did (pool :: rest) w
    = match (getDidFromPool did pool w).2 with
      | Ok v => Fulfilled {| value := v |}
      | Throw e => Rejected {| reason := e |}
      end :: didResponses did rest (getDidFromPool did pool w).1.
Proof.
  unfold didResponses. simpl.
  unfold mbind, M_bind, bind, try_catch, mret, M_ret, ret.
  destruct (getDidFromPool did pool w) as [w1 [v|e]]; simpl;
    rewrite allSettled_getDidFromPool_eq; done.
Qed.

(** A pool whose ledger answers the query with the client's
    [LedgerNotFound] error gives a not-found outcome that names the DID and
    the pool. *)
Lemma getDidFromPool_not_found did pool w request :
  indySdk_buildGetNymRequest did = Ok request →
  (∀ e, ∃ e' message,
     pool_submitReadRequest pool request e
       = (e', Throw (IndyError "LedgerNotFound" message))) →
  (getDidFromPool did pool w).2
    = Throw (IndySdkPoolNotFoundError
               ("Did '" +:+ did +:+ "' not found on ledger " +:+ pool_id pool)).
Proof.
  intros Hb Hread. unfold getDidFromPool, pool_read. unfold_monad. simpl.
  rewrite Hb. simpl. destruct (Hread (env w)) as (e' & message & ->). done.
Qed.

Lemma didResponses_all_not_found did ps w request :
  indySdk_buildGetNymRequest did = Ok request →
  (∀ pool, pool ∈ ps → ∀ e, ∃ e' message,
     pool_submitReadRequest pool request e
       = (e', Throw (IndyError "LedgerNotFound" message))) →
  ∀ i o, didResponses did ps w !! i = Some o →
         ∃ message, o = Rejected {| reason := IndySdkPoolNotFoundError message |}.
Proof.
  intros Hb. revert w. induction ps as [|pool rest IH]; intros w Hread i o Hi.
  - unfold didResponses in Hi. by simpl in Hi.
  - rewrite didResponses_cons in Hi.
    rewrite (getDidFromPool_not_found did pool w request) in Hi;
      [|done|apply Hread, elem_of_cons; by left].
    destruct i as [|i]; simpl in Hi.
    + simplify_eq. eauto.
    + eapply IH; [|exact Hi]. intros p Hp. apply Hread, elem_of_cons. by right.
Qed.

(** From the ledgers to the caller: when the cache does not answer and the
    ledger of every configured pool answers the query with the client's
    [LedgerNotFound] error, [getPoolForDid] fails with the not-found error
    that names the DID and the number of pools, and the cache is as before. *)
Theorem getPoolForDid_not_found_anywhere this ctx did w request :
  pools this ≠ [] →
  cacheHit this did w = None →
  indySdk_buildGetNymRequest did = Ok request →
  (∀ pool, pool ∈ pools this → ∀ e, ∃ e' message,
     pool_submitReadRequest pool request e
       = (e', Throw (IndyError "LedgerNotFound" message))) →
  (getPoolForDid this ctx did w).2
    = Throw (IndySdkPoolNotFoundError (didNotFoundMessage did (length (pools this)))) ∧
  cache (getPoolForDid this ctx did w).1 = cache w ∧
  readQueries (trace (getPoolForDid this ctx did w).1)
    = readQueries (trace w) ++ map (λ pool, (pool, request)) (pools this).
Proof.
  intros Hne Hmiss Hb Hread.
  pose proof (didResponses_all_not_found did (pools this)
                (cache_get (cacheKey did) w).1 request Hb Hread) as Hall.
  fold (queryOutcomes this did w) in Hall.
  assert (allRejected (queryOutcomes this did w)) as Hrej.
  { intros i o Hi. destruct (Hall i o Hi) as [message ->]. eauto. }
  assert ((getPoolForDid this ctx did w).2
          = Throw (IndySdkPoolNotFoundError
                     (didNotFoundMessage did (length (pools this))))) as Hres.
  { rewrite getPoolForDid_run, Hmiss by done. cbv zeta.
    rewrite (allRejected_onlyFulfilled _ Hrej). simpl. f_equal.
    apply noneSuccessful_all_not_found.
    intros [e] Hr. apply list_elem_of_lookup in Hr as [i Hi]. simpl.
    apply allRejected_onlyRejected in Hi; [|done].
    destruct (Hall i _ Hi) as [message Heq]. by simplify_eq. }
  split; [done|].
  destruct (getPoolForDid_miss_world this ctx did w Hne Hmiss) as (_ & _ & Hw).
  rewrite Hres in Hw. destruct Hw as [Hc Ht]. split; [done|].
  rewrite Ht, readQueries_app.
  change (EvCacheGet (cacheKey did) :: ?l) with ([EvCacheGet (cacheKey did)] ++ l).
  rewrite readQueries_app, readQueries_queryEvents, Hb. done.
Qed.
End ResolutionMore.

(** * More on writes *)

Section WriteMore.
Context `{Collaborators}.

Lemma translateError_not_indy e : isIndyError (translateError e) None = false.
Proof. unfold translateError. by destruct e. Qed.

Lemma translateError_fixed e : isIndyError e None = false → translateError e = e.
Proof. unfold translateError. by intros ->. Qed.

(** What [getTransactionAuthorAgreement] throws went through its [catch]
    clause. *)
Lemma getTransactionAuthorAgreement_throws pool w e :
  (getTransactionAuthorAgreement pool w).2 = Throw e → isIndyError e None = false.
Proof.
  unfold getTransactionAuthorAgreement, try_catch, throw.
  match goal with
  | |- context [match ?m w with _ => _ end] => destruct (m w) as [w1 [v|e0]]
  end; simpl; [done|].
  intros; simplify_eq. apply translateError_not_indy.
Qed.

(** The ledger has an agreement and the pool is configured without one:
    the write fails with the request to configure one, in the world the
    fetch left; nothing is appended, signed or submitted. *)
Theorem submitWriteRequest_needs_taa_configuration agentContext pool request signDid
    w w1 authorAgreement :
  getTransactionAuthorAgreement pool w = (w1, Ok (Some authorAgreement)) →
  transactionAuthorAgreement (config pool) = None →
  submitWriteRequest agentContext pool request signDid w
    = (w1, Throw (IndySdkPoolError (specifyTaaMessage authorAgreement) None)) ∧
  ∃ evs, trace w1 = trace w ++ evs ∧
         signedRequests evs = [] ∧ writeSubmissions evs = [] ∧ taaAppends evs = [].
Proof.
  intros Hf Htaa. split.
  - by rewrite submitWriteRequest_run, appendTaa_run, Hf, Htaa.
  - by eapply getTransactionAuthorAgreement_reads_only.
Qed.

(** The fetch of the agreement fails: the write fails with the same error,
    which is not a raw error of the ledger client; the pool's agreement
    stays unfetched, so that the next write tries again; nothing is
    appended, signed or submitted. *)
Theorem submitWriteRequest_fetch_failure agentContext pool request signDid w w1 e :
  getTransactionAuthorAgreement pool w = (w1, Throw e) →
  submitWriteRequest agentContext pool request signDid w = (w1, Throw e) ∧
  isIndyError e None = false ∧
  authorAgreementOf w1 !! pool_ref pool = None ∧
  authorAgreementOf w1 = authorAgreementOf w ∧
  ∃ evs, trace w1 = trace w ++ evs ∧
         signedRequests evs = [] ∧ writeSubmissions evs = [] ∧ taaAppends evs = [].
Proof.
  intros Hf.
  assert (isIndyError e None = false) as He
    by (apply (getTransactionAuthorAgreement_throws pool w); by rewrite Hf).
  split; [|split; [done|]].
  - rewrite submitWriteRequest_run, appendTaa_run, Hf.
    by rewrite !(translateError_fixed _ He).
  - destruct (authorAgreementOf w !! pool_ref pool) as [v|] eqn:Hmemo.
    { by rewrite (getTransactionAuthorAgreement_memo _ _ _ Hmemo) in Hf. }
    pose proof Hf as Hf'.
    apply getTransactionAuthorAgreement_fetch in Hf' as (_ & _ & _ & _ & Ha); [|done].
    split; [by rewrite Ha|]. split; [done|].
    by eapply getTransactionAuthorAgreement_reads_only.
Qed.

(** The caller's configuration matches the ledger's agreement: the
    acceptance is appended with the ledger's text and digest, the
    configured version and mechanism, and the clock in whole seconds,
    rounded down.  What is signed afterwards is the request with the
    acceptance; when appending fails, nothing is signed. *)
Theorem submitWriteRequest_appends_acceptance agentContext pool request signDid
    w w1 authorAgreement mechanisms taa :
  getTransactionAuthorAgreement pool w = (w1, Ok (Some authorAgreement)) →
  transactionAuthorAgreement (config pool) = Some taa →
  acceptanceMechanisms authorAgreement = Some mechanisms →
  version authorAgreement = taa_version taa →
  taa_acceptanceMechanism taa ∈ Object_keys (aml mechanisms) →
  ∃ time evs,
    (1000 * time ≤ Date_getTime (env w1) < 1000 * time + 1000)%Z ∧
    trace (submitWriteRequest agentContext pool request signDid w).1
      = trace w1 ++
        EvAppendTaa request (text authorAgreement) (taa_version taa)
          (digest authorAgreement) (taa_acceptanceMechanism taa) time :: evs ∧
    taaAppends evs = [] ∧
    (∀ r, r ∈ signedRequests evs →
       indySdk_appendTxnAuthorAgreementAcceptanceToRequest request
         (text authorAgreement) (taa_version taa) (digest authorAgreement)
         (taa_acceptanceMechanism taa) time = Ok r) ∧
    (∀ e, indySdk_appendTxnAuthorAgreementAcceptanceToRequest request
            (text authorAgreement) (taa_version taa) (digest authorAgreement)
            (taa_acceptanceMechanism taa) time = Throw e →
          evs = [] ∧
          (submitWriteRequest agentContext pool request signDid w).2
            = Throw (translateError e)).
Proof.
  intros Hf Htaa Hm Hv Hk.
  exists (Date_getTime (env w1) `div` 1000)%Z.
  assert (taaMismatch taa authorAgreement mechanisms = false) as Hok.
  { unfold taaMismatch, js_in. rewrite (bool_decide_eq_true_2 _ Hv).
    by rewrite (bool_decide_eq_true_2 _ Hk). }
  rewrite submitWriteRequest_run, appendTaa_run, Hf, Htaa, Hm, Hok. cbv zeta.
  assert (1000 * (Date_getTime (env w1) `div` 1000) ≤ Date_getTime (env w1)
          < 1000 * (Date_getTime (env w1) `div` 1000) + 1000)%Z as Htime.
  { pose proof (Z.mul_div_le (Date_getTime (env w1)) 1000).
    pose proof (Z.mul_succ_div_gt (Date_getTime (env w1)) 1000). lia. }
  destruct Htime as [Hlo Hhi].
  destruct (indySdk_appendTxnAuthorAgreementAcceptanceToRequest _ _ _ _ _ _)
    as [requestWithTaa|e]; simpl.
  - unfold signAndSubmit.
    destruct (assertIndySdkWallet _) as [[]|e]; simpl.
    2:{ exists []. repeat split; try done.
        intros r Hr. by apply elem_of_nil in Hr. }
    destruct (wallet_handle _) as [handle|e]; simpl.
    2:{ exists []. repeat split; try done.
        intros r Hr. by apply elem_of_nil in Hr. }
    destruct (indySdk_signRequest _ _ _ _) as [e2 [signed|e]].
    + destruct (pool_submitWriteRequest _ _ _) as [e3 r3]. simpl.
      eexists [_; _]. rewrite <- app_assoc. repeat split; try done.
      intros r Hr. unfold signedRequests in Hr. simpl in Hr.
      apply list_elem_of_singleton in Hr. by subst.
    + simpl. eexists [_]. rewrite <- app_assoc. repeat split; try done.
      intros r Hr. unfold signedRequests in Hr. simpl in Hr.
      apply list_elem_of_singleton in Hr. by subst.
  - exists []. repeat split; try done.
    + intros r Hr. by apply elem_of_nil in Hr.
    + intros; simplify_eq. by rewrite translateError_idem.
Qed.

Lemma appendTaa_events pool request w :
  ∃ evs,
    trace (appendTaa pool request w).1 = trace w ++ evs ∧
    signedRequests evs = [] ∧ writeSubmissions evs = [] ∧
    (length (taaAppends evs) ≤ 1)%nat.
Proof.
  rewrite appendTaa_run.
  destruct (getTransactionAuthorAgreement pool w) as [w1 r1] eqn:Hf.
  destruct (getTransactionAuthorAgreement_reads_only _ _ _ _ Hf)
    as (evs1 & Ht & Hs & Hw & Ha).
  assert (∃ evs, trace w1 = trace w ++ evs ∧ signedRequests evs = []
                 ∧ writeSubmissions evs = [] ∧ (length (taaAppends evs) ≤ 1)%nat) as Hsame.
  { exists evs1. rewrite Ha. simpl. repeat split; try done. lia. }
  destruct r1 as [[a|]|e]; [|done..].
  destruct (transactionAuthorAgreement (config pool)) as [taa|]; [|done].
  destruct (acceptanceMechanisms a) as [m|]; [|done].
  destruct (taaMismatch taa a m); [done|]. cbv zeta. simpl.
  eexists (evs1 ++ [_]). rewrite Ht, <- app_assoc. split; [done|].
  unfold signedRequests, writeSubmissions, taaAppends in *.
  rewrite !omap_app, Hs, Hw, Ha. simpl. repeat split; try done.
Qed.

Lemma signAndSubmit_events agentContext pool requestWithTaa signDid w :
  ∃ evs,
    trace (signAndSubmit agentContext pool requestWithTaa signDid w).1
      = trace w ++ evs ∧
    taaAppends evs = [] ∧
    (evs = []
     ∨ (∃ handle, evs = [EvSignRequest handle signDid requestWithTaa])
     ∨ (∃ handle e signed,
          evs = [EvSignRequest handle signDid requestWithTaa;
                 EvSubmitWrite pool signed] ∧
          (indySdk_signRequest handle signDid requestWithTaa e).2 = Ok signed)) ∧
    (∀ response,
       (signAndSubmit agentContext pool requestWithTaa signDid w).2 = Ok response →
       ∃ handle signed,
         evs = [EvSignRequest handle signDid requestWithTaa;
                EvSubmitWrite pool signed]).
Proof.
  unfold signAndSubmit.
  destruct (assertIndySdkWallet _) as [[]|e].
  2:{ exists []. rewrite app_nil_r. repeat split; [by left|done]. }
  destruct (wallet_handle _) as [handle|e].
  2:{ exists []. rewrite app_nil_r. repeat split; [by left|done]. }
  destruct (indySdk_signRequest _ _ _ _) as [e2 [signed|e]] eqn:Hs.
  - destruct (pool_submitWriteRequest _ _ _) as [e3 r3]. simpl.
    eexists [_; _]. repeat split.
    + right. right. exists handle, (env w), signed. by rewrite Hs.
    + intros. by exists handle, signed.
  - simpl. eexists [_]. repeat split; [right; left; by exists handle|done].
Qed.

(** One call of [submitWriteRequest] appends at most one acceptance, signs
    at most once and submits at most once.  A submission goes to the pool
    of the call, and carries what signing returned for the one request that
    was signed.  A call that returns has submitted. *)
Theorem submitWriteRequest_signs_then_submits agentContext pool request signDid w :
  ∃ evs,
    trace (submitWriteRequest agentContext pool request signDid w).1
      = trace w ++ evs ∧
    (length (taaAppends evs) ≤ 1)%nat ∧
    (length (signedRequests evs) ≤ 1)%nat ∧
    (length (writeSubmissions evs) ≤ 1)%nat ∧
    (∀ q r, (q, r) ∈ writeSubmissions evs →
       q = pool ∧
       ∃ handle signedRequest e,
         signedRequests evs = [signedRequest] ∧
         (indySdk_signRequest handle signDid signedRequest e).2 = Ok r) ∧
    (∀ response,
       (submitWriteRequest agentContext pool request signDid w).2 = Ok response →
       ∃ r, writeSubmissions evs = [(pool, r)]).
Proof.
  rewrite submitWriteRequest_run.
  destruct (appendTaa_events pool request w) as (evs1 & Ht1 & Hs1 & Hw1 & Ha1).
  destruct (appendTaa pool request w) as [w1 [requestWithTaa|e]]; simpl in Ht1.
  2:{ exists evs1. simpl. rewrite Hs1, Hw1. simpl.
      split; [done|]. split; [done|]. split; [lia|]. split; [lia|]. split; [|done].
      intros q r Hq. by apply elem_of_nil in Hq. }
  destruct (signAndSubmit_events agentContext pool requestWithTaa signDid w1)
    as (evs2 & Ht2 & Ha2 & Hshape & Hok).
  exists (evs1 ++ evs2). rewrite Ht2, Ht1, <- app_assoc. split; [done|].
  unfold signedRequests, writeSubmissions, taaAppends in *.
  rewrite !omap_app, Hs1, Hw1, Ha2, app_nil_r. simpl.
  split; [done|].
  destruct Hshape as [->|[[handle ->]|(handle & e & signed & -> & Hsig)]]; simpl;
    (split; [lia|]); (split; [lia|]); split.
  - intros q r Hq. by apply elem_of_nil in Hq.
  - intros response Hr. by destruct (Hok response Hr) as (? & ? & ?).
  - intros q r Hq. by apply elem_of_nil in Hq.
  - intros response Hr. by destruct (Hok response Hr) as (? & ? & ?).
  - intros q r Hq. apply list_elem_of_singleton in Hq. simplify_eq.
    split; [done|]. by exists handle, requestWithTaa, e.
  - intros response Hr. by exists signed.
Qed.

(** No raw error of the ledger client leaves [getDidFromPool],
    [submitReadRequest] or [submitWriteRequest]: what they throw is not
    recognised by [isIndyError]. *)
Theorem client_errors_are_translated :
  (∀ did pool w e,
     (getDidFromPool did pool w).2 = Throw e → isIndyError e None = false)
  ∧ (∀ pool request w e,
       (submitReadRequest pool request w).2 = Throw e → isIndyError e None = false)
  ∧ (∀ agentContext pool request signDid w e,
       (submitWriteRequest agentContext pool request signDid w).2 = Throw e →
       isIndyError e None = false).
Proof.
  split; [|split].
  - intros did pool w e. unfold getDidFromPool, try_catch, throw.
    match goal with
    | |- context [match ?m w with _ => _ end] => destruct (m w) as [w1 [v|e0]]
    end; simpl; [done|].
    destruct (isIndyError e0 (Some _)); simpl; intros; simplify_eq; [done|].
    apply translateError_not_indy.
  - intros pool request w e. unfold submitReadRequest, try_catch, throw.
    destruct (pool_read pool request w) as [w1 [v|e0]]; simpl; [done|].
    intros; simplify_eq. apply translateError_not_indy.
  - intros agentContext pool request signDid w e.
    unfold submitWriteRequest, try_catch, throw.
    match goal with
    | |- context [match ?m w with _ => _ end] => destruct (m w) as [w1 [v|e0]]
    end; simpl; [done|].
    intros; simplify_eq. apply translateError_not_indy.
Qed.
End WriteMore.

(** * More on the registry *)

Section RegistryMore.
Context `{Collaborators}.

Lemma connectToPools_loop_handles ps acc w w' handles :
  connectToPools_loop ps acc w = (w', Ok handles) →
  ∃ connected,
    handles = acc ++ connected ∧
    Forall2 (λ pool handle, ∃ e, (pool_connect pool e).2 = Ok handle) ps connected.
Proof.
  revert acc w. induction ps as [|pool rest IH]; intros acc w Hrun; simpl in Hrun.
  - unfold ret in Hrun. simplify_eq. exists []. by rewrite app_nil_r.
  - unfold connect in Hrun. unfold_monad. simpl in Hrun.
    destruct (pool_connect pool (env w)) as [e1 [handle|err]] eqn:Hc; [|done].
    apply IH in Hrun as (connected & -> & Hall).
    exists (handle :: connected). rewrite <- app_assoc. split; [done|].
    constructor; [|done]. exists (env w). by rewrite Hc.
Qed.

(** When [connectToPools] returns, it returns one handle per pool, in the
    order of the registry, and handle [i] is what connecting pool [i]
    returned. *)
Theorem connectToPools_handles_in_order this w handles :
  (connectToPools this w).2 = Ok handles →
  Forall2 (λ pool handle, ∃ e, (pool_connect pool e).2 = Ok handle)
          (pools this) handles.
Proof.
  unfold connectToPools. intros Hres.
  destruct (connectToPools_loop (pools this) [] w) as [w' r] eqn:Hrun.
  simpl in Hres. subst r.
  by apply connectToPools_loop_handles in Hrun as (connected & -> & Hall).
Qed.

(** The pool that [getPoolForNamespace] returns is a pool of the registry:
    the first one when the namespace is omitted or empty, and otherwise a
    pool that carries the namespace. *)
Theorem getPoolForNamespace_returns_configured_pool this indyNamespace pool :
  getPoolForNamespace this indyNamespace = Ok pool →
  pool ∈ pools this ∧
  (js_not_string indyNamespace = true → pools this !! 0 = Some pool) ∧
  (js_not_string indyNamespace = false → didIndyNamespace pool = indyNamespace).
Proof.
  unfold getPoolForNamespace.
  destruct (pools this) as [|first rest] eqn:Hp; [done|].
  destruct (js_not_string indyNamespace).
  - intros; simplify_eq. split; [apply elem_of_cons; by left|done].
  - destruct (List.find _ (first :: rest)) as [p|] eqn:Hfind; [|done].
    intros; simplify_eq. apply find_some_elem in Hfind as [Hin Hns].
    apply bool_decide_eq_true_1 in Hns. done.
Qed.

(** [getPoolForNamespace] fails in two cases only: with the configuration
    error when the registry is empty, and with the not-found error, whose
    message quotes the namespace, when the registry is not empty and no pool
    carries the given, non-empty namespace. *)
Theorem getPoolForNamespace_failures this indyNamespace e :
  getPoolForNamespace this indyNamespace = Throw e ↔
  (pools this = [] ∧ e = IndySdkPoolNotConfiguredError notConfiguredMessage)
  ∨ (pools this ≠ [] ∧
     ∃ ns, indyNamespace = Some ns ∧ ns ≠ "" ∧
           (∀ p, p ∈ pools this → didIndyNamespace p ≠ Some ns) ∧
           e = IndySdkPoolNotFoundError
                 ("No ledgers found for IndyNamespace '" +:+ ns +:+ "'.")).
Proof.
  unfold getPoolForNamespace.
  destruct (pools this) as [|first rest] eqn:Hp.
  { split.
    - intros; simplify_eq. by left.
    - intros [[_ ->]|[Hne _]]; done. }
  split.
  - intros Hres. right. split; [done|].
    destruct indyNamespace as [ns|]; [|done].
    change (js_not_string (Some ns)) with (bool_decide (ns = "")) in Hres.
    destruct (bool_decide (ns = "")) eqn:Hns; [done|].
    apply bool_decide_eq_false_1 in Hns.
    destruct (List.find _ (first :: rest)) as [p|] eqn:Hfind; [done|].
    simplify_eq. exists ns. split; [done|]. split; [done|]. split; [|done].
    intros p Hin Hp'.
    apply list_elem_of_In in Hin.
    pose proof (find_none _ _ Hfind p Hin) as Hfalse. simpl in Hfalse.
    by rewrite bool_decide_eq_true_2 in Hfalse.
  - intros [[? _]|(_ & ns & -> & Hns & Hnone & ->)]; [done|].
    change (js_not_string (Some ns)) with (bool_decide (ns = "")).
    rewrite bool_decide_eq_false_2 by done.
    rewrite find_none_bool; [done|].
    intros p Hin. apply bool_decide_eq_false_2. by apply Hnone.
Qed.

Lemma find_imap_first {A B} (g : nat → A → B) (f : B → bool) (before : list A)
    (x : A) (after : list A) :
  f (g (length before) x) = true →
  (∀ i y, before !! i = Some y → f (g i y) = false) →
  List.find f (imap g (before ++ x :: after)) = Some (g (length before) x).
Proof.
  revert g. induction before as [|y before IH]; intros g Hx Hbefore; simpl in *.
  - by rewrite Hx.
  - rewrite (Hbefore 0 y) by done.
    apply (IH (g ∘ S)); [done|]. intros i z Hz. by apply (Hbefore (S i)).
Qed.

(** After [setPools], a lookup by a non-empty namespace returns the pool
    object that was built from the first configuration with this namespace,
    whatever configurations follow it. *)
Theorem setPools_then_getPoolForNamespace next before poolConfig after ns :
  ns ≠ "" →
  indyNamespace poolConfig = Some ns →
  (∀ other, other ∈ before → indyNamespace other ≠ Some ns) →
  getPoolForNamespace (setPools next (before ++ poolConfig :: after)) (Some ns)
    = Ok {| pool_ref := next + length before; config := poolConfig |}.
Proof.
  intros Hns Hcfg Hbefore.
  rewrite getPoolForNamespace_find; [|by destruct before|done].
  unfold setPools. simpl pools.
  rewrite (find_imap_first _ _ before poolConfig after); [done| |].
  - apply bool_decide_eq_true_2. done.
  - intros i y Hy. apply bool_decide_eq_false_2. unfold didIndyNamespace. simpl.
    apply Hbefore. by eapply list_elem_of_lookup_2.
Qed.
End RegistryMore.

(** * Sorting requested credentials: properties *)

Section SortMore.
Context {Requested : Type} (revoked : Requested → option bool).

Lemma compareRevoked_rank credential compareTo :
  compareRevoked revoked credential compareTo
    = match Nat.compare (revokedRank revoked credential) (revokedRank revoked compareTo) with
      | Lt => (-1)%Z
      | Eq => 0%Z
      | Gt => 1%Z
      end.
Proof.
  unfold compareRevoked, revokedRank.
  by destruct (revoked credential) as [[]|], (revoked compareTo) as [[]|].
Qed.

(** The comparison function compares the places in the order: no status,
    not revoked, revoked.  It is a consistent comparison function:
    exchanging the arguments negates it, and it is transitive; so the result
    of the sort does not depend on the sorting algorithm. *)
Theorem compareRevoked_compares_ranks :
  (∀ credential compareTo,
     compareRevoked revoked credential compareTo
       = match Nat.compare (revokedRank revoked credential)
                           (revokedRank revoked compareTo) with
         | Lt => (-1)%Z
         | Eq => 0%Z
         | Gt => 1%Z
         end)
  ∧ (∀ a b, compareRevoked revoked b a = (- compareRevoked revoked a b)%Z)
  ∧ (∀ a b c,
       (compareRevoked revoked a b ≤ 0)%Z → (compareRevoked revoked b c ≤ 0)%Z →
       (compareRevoked revoked a c ≤ 0)%Z).
Proof.
  split; [apply compareRevoked_rank|]. split.
  - intros a b. rewrite !compareRevoked_rank, (Nat.compare_antisym _ (revokedRank revoked b)).
    by destruct (Nat.compare _ _).
  - intros a b c. rewrite !compareRevoked_rank.
    destruct (Nat.compare_spec (revokedRank revoked a) (revokedRank revoked b));
      destruct (Nat.compare_spec (revokedRank revoked b) (revokedRank revoked c));
      destruct (Nat.compare_spec (revokedRank revoked a) (revokedRank revoked c));
      lia.
Qed.

Lemma Array_sort_insert_Permutation {A} (comparefn : A → A → Z) x l :
  Array_sort_insert comparefn x l ≡ₚ x :: l.
Proof.
  induction l as [|y l IH]; simpl; [done|].
  destruct (0 <? comparefn x y)%Z; [|done].
  rewrite IH. apply Permutation_swap.
Qed.

Lemma Array_sort_Permutation {A} (comparefn : A → A → Z) l :
  Array_sort comparefn l ≡ₚ l.
Proof.
  induction l as [|x l IH]; simpl; [done|].
  by rewrite Array_sort_insert_Permutation, IH.
Qed.

(** An element without status stays in front. *)
Lemma insert_undefined x l :
  revoked x = None → Array_sort_insert (compareRevoked revoked) x l = x :: l.
Proof.
  intros Hx. destruct l as [|y l]; simpl; [done|].
  rewrite compareRevoked_rank. unfold revokedRank. rewrite Hx.
  by destruct (revoked y) as [[]|].
Qed.

(** An element moves behind those of lower rank and stops in front of the
    first one whose rank is not lower. *)
Lemma insert_behind_lower x lower others :
  Forall (λ y, (revokedRank revoked y < revokedRank revoked x)%nat) lower →
  Forall (λ y, (revokedRank revoked x ≤ revokedRank revoked y)%nat) others →
  Array_sort_insert (compareRevoked revoked) x (lower ++ others)
    = lower ++ x :: others.
Proof.
  intros Hlower Hothers. induction Hlower as [|y lower Hy _ IH]; simpl.
  - destruct Hothers as [|z others Hz _]; simpl; [done|].
    rewrite compareRevoked_rank.
    destruct (Nat.compare_spec (revokedRank revoked x) (revokedRank revoked z));
      [done|done|lia].
  - rewrite compareRevoked_rank.
    destruct (Nat.compare_spec (revokedRank revoked x) (revokedRank revoked y));
      [lia|lia|]. simpl. by rewrite IH.
Qed.

Lemma Forall_filter_hasRevoked status l :
  Forall (λ y, revoked y = status) (List.filter (hasRevoked revoked status) l).
Proof.
  apply Forall_forall. intros y Hy. apply list_elem_of_In, filter_In in Hy as [_ Hy].
  by apply bool_decide_eq_true_1 in Hy.
Qed.

Lemma filter_hasRevoked_cons status x l :
  List.filter (hasRevoked revoked status) (x :: l)
    = if bool_decide (revoked x = status)
      then x :: List.filter (hasRevoked revoked status) l
      else List.filter (hasRevoked revoked status) l.
Proof. done. Qed.

(** Inserting a credential into the three groups of an array gives the
    three groups of the array with the credential in front. *)
Lemma insert_into_groups x l :
  Array_sort_insert (compareRevoked revoked) x
    (List.filter (hasRevoked revoked None) l
     ++ List.filter (hasRevoked revoked (Some false)) l
     ++ List.filter (hasRevoked revoked (Some true)) l)
  = List.filter (hasRevoked revoked None) (x :: l)
    ++ List.filter (hasRevoked revoked (Some false)) (x :: l)
    ++ List.filter (hasRevoked revoked (Some true)) (x :: l).
Proof.
  rewrite !filter_hasRevoked_cons.
  pose proof (Forall_filter_hasRevoked None l) as HU.
  pose proof (Forall_filter_hasRevoked (Some false) l) as HF.
  pose proof (Forall_filter_hasRevoked (Some true) l) as HT.
  destruct (revoked x) as [[]|] eqn:Hx.
  - rewrite !bool_decide_eq_false_2, bool_decide_eq_true_2 by done.
    rewrite app_assoc, insert_behind_lower; [by rewrite <- app_assoc| |].
    + apply Forall_app. split; eapply Forall_impl; eauto;
        intros y Hy; unfold revokedRank; rewrite Hx, Hy; simpl; lia.
    + eapply Forall_impl; eauto.
      intros y Hy; unfold revokedRank; rewrite Hx, Hy; simpl; lia.
  - rewrite (bool_decide_eq_false_2 (Some false = None)) by done.
    rewrite (bool_decide_eq_true_2 (Some false = Some false)) by done.
    rewrite (bool_decide_eq_false_2 (Some false = Some true)) by done.
    rewrite insert_behind_lower; [done| |].
    + eapply Forall_impl; eauto.
      intros y Hy; unfold revokedRank; rewrite Hx, Hy; simpl; lia.
    + apply Forall_app. split; eapply Forall_impl; eauto;
        intros y Hy; unfold revokedRank; rewrite Hx, Hy; simpl; lia.
  - rewrite bool_decide_eq_true_2, !bool_decide_eq_false_2 by done.
    by rewrite insert_undefined.
Qed.

(** The sorted array, group by group. *)
Lemma Array_sort_by_groups l :
  Array_sort (compareRevoked revoked) l
    = List.filter (hasRevoked revoked None) l
      ++ List.filter (hasRevoked revoked (Some false)) l
      ++ List.filter (hasRevoked revoked (Some true)) l.
Proof.
  induction l as [|x l IH]; [done|].
  simpl Array_sort. fold (Array_sort (compareRevoked revoked) l).
  rewrite IH. apply insert_into_groups.
Qed.

(** The sorted array is the credentials without status, then those that
    are not revoked, then the revoked ones; within each group the
    credentials keep the order they had in the input. *)
Theorem sortRequestedCredentials_groups_in_order credentials :
  sortRequestedCredentials revoked credentials
    = List.filter (hasRevoked revoked None) credentials
      ++ List.filter (hasRevoked revoked (Some false)) credentials
      ++ List.filter (hasRevoked revoked (Some true)) credentials.
Proof.
  unfold sortRequestedCredentials. cbv zeta.
  induction credentials as [|credential rest IH]; [done|].
  change (Array_sort (compareRevoked revoked) (credential :: rest))
    with (Array_sort_insert (compareRevoked revoked) credential
            (Array_sort (compareRevoked revoked) rest)).
  rewrite IH. apply insert_into_groups.
Qed.

Lemma constant_rank_sorted k l :
  Forall (λ y, revokedRank revoked y = k) l →
  StronglySorted (λ a b, (revokedRank revoked a ≤ revokedRank revoked b)%nat) l.
Proof.
  induction 1 as [|y l Hy Hl IH]; constructor; [done|].
  eapply Forall_impl; [exact Hl|]. intros z Hz. simpl in Hz. lia.
Qed.

(** The sorted array holds the credentials of the input, each as often as
    the input does, and no credential comes before one of a lower rank. *)
Theorem sortRequestedCredentials_sorted_permutation credentials :
  sortRequestedCredentials revoked credentials ≡ₚ credentials ∧
  length (sortRequestedCredentials revoked credentials) = length credentials ∧
  StronglySorted (λ a b, (revokedRank revoked a ≤ revokedRank revoked b)%nat)
    (sortRequestedCredentials revoked credentials).
Proof.
  split; [apply Array_sort_Permutation|].
  split; [apply Permutation_length, Array_sort_Permutation|].
  unfold sortRequestedCredentials. cbv zeta. rewrite Array_sort_by_groups.
  assert (∀ status k y,
            (revoked y = status → revokedRank revoked y = k) →
            y ∈ List.filter (hasRevoked revoked status) credentials →
            revokedRank revoked y = k) as Hrank.
  { intros status k y Hk Hy. apply Hk.
    apply list_elem_of_In, filter_In in Hy as [_ Hy].
    by apply bool_decide_eq_true_1 in Hy. }
  assert (∀ y, y ∈ List.filter (hasRevoked revoked None) credentials →
               revokedRank revoked y = 0) as HU
    by (intros y; apply Hrank; unfold revokedRank; by intros ->).
  assert (∀ y, y ∈ List.filter (hasRevoked revoked (Some false)) credentials →
               revokedRank revoked y = 1) as HF
    by (intros y; apply Hrank; unfold revokedRank; by intros ->).
  assert (∀ y, y ∈ List.filter (hasRevoked revoked (Some true)) credentials →
               revokedRank revoked y = 2) as HT
    by (intros y; apply Hrank; unfold revokedRank; by intros ->).
  apply StronglySorted_app_2; [|by eapply constant_rank_sorted, Forall_forall|].
  - intros a b Ha Hb. apply HU in Ha. rewrite Ha. lia.
  - apply StronglySorted_app_2;
      [|by eapply constant_rank_sorted, Forall_forall..].
    intros a b Ha Hb. apply HF in Ha. apply HT in Hb. lia.
Qed.

Lemma filter_hasRevoked_same status l :
  Forall (λ y, revoked y = status) l →
  List.filter (hasRevoked revoked status) l = l.
Proof.
  induction 1 as [|y l Hy _ IH]; [done|].
  rewrite filter_hasRevoked_cons, bool_decide_eq_true_2 by done. by rewrite IH.
Qed.

Lemma filter_hasRevoked_other status status' l :
  status ≠ status' →
  Forall (λ y, revoked y = status) l →
  List.filter (hasRevoked revoked status') l = [].
Proof.
  intros Hne. induction 1 as [|y l Hy _ IH]; [done|].
  rewrite filter_hasRevoked_cons, bool_decide_eq_false_2 by congruence. done.
Qed.

(** Sorting an array that is sorted already changes nothing: sorting twice
    is sorting once. *)
Theorem sortRequestedCredentials_idempotent credentials :
  sortRequestedCredentials revoked (sortRequestedCredentials revoked credentials)
    = sortRequestedCredentials revoked credentials.
Proof.
  unfold sortRequestedCredentials. cbv zeta.
  rewrite (Array_sort_by_groups credentials).
  pose proof (Forall_filter_hasRevoked None credentials) as HU.
  pose proof (Forall_filter_hasRevoked (Some false) credentials) as HF.
  pose proof (Forall_filter_hasRevoked (Some true) credentials) as HT.
  rewrite Array_sort_by_groups, !List.filter_app.
  rewrite (filter_hasRevoked_same None _ HU).
  rewrite (filter_hasRevoked_same (Some false) _ HF).
  rewrite (filter_hasRevoked_same (Some true) _ HT).
  rewrite (filter_hasRevoked_other (Some false) None _ ltac:(done) HF).
  rewrite (filter_hasRevoked_other (Some true) None _ ltac:(done) HT).
  rewrite (filter_hasRevoked_other None (Some false) _ ltac:(done) HU).
  rewrite (filter_hasRevoked_other (Some true) (Some false) _ ltac:(done) HT).
  rewrite (filter_hasRevoked_other None (Some true) _ ltac:(done) HU).
  rewrite (filter_hasRevoked_other (Some false) (Some true) _ ltac:(done) HF).
  by rewrite !app_nil_r.
Qed.
End SortMore.

(** * Concrete runs *)

(** With three pools of which the second fails to connect: the first
    connects, the failure of the second is the failure of the call, and the
    trace holds the connection attempts of the first two pools only. *)
Lemma connectToPools_sequential_until_failure_witness :
  @connectToPools (Demo.scripted Runs.secondUnreachable) Runs.threePools
    (Demo.world0 Runs.secondUnreachable)
  = (@Build_World (Demo.scripted Runs.secondUnreachable) 2%Z ∅ ∅
       [EvConnect Demo.poolA; EvConnect Demo.poolB],
     Throw Demo.timeout).
Proof.
  refine (proj1 (proj2 (@connectToPools_sequential_until_failure
                          (Demo.scripted Runs.secondUnreachable) Runs.threePools
                          (Demo.world0 Runs.secondUnreachable)))
            [Demo.poolA] Demo.poolB [Runs.poolC] [1] 1%Z 2%Z Demo.timeout _ _ _).
  - reflexivity.
  - apply (@connectsInOrder_cons (Demo.scripted Runs.secondUnreachable)
             Demo.poolA [] 0%Z 1%Z 1 [] 1%Z); [reflexivity|constructor].
  - reflexivity.
Defined.

(** C5 as stated fails: when the first pool cannot be reached,
    [connectToPools] fails with that error and the second pool is never
    asked to connect. *)
Lemma connectToPools_abandons_remaining_pools :
  let run := @connectToPools (Demo.scripted Runs.firstUnreachable) Demo.service
               (Demo.world0 Runs.firstUnreachable) in
  pools Demo.service = [Demo.poolA; Demo.poolB] ∧
  run.2 = Throw Demo.timeout ∧
  connectAttempts (trace run.1) = [Demo.poolA] ∧
  Demo.poolB ∉ connectAttempts (trace run.1).
Proof.
  vm_compute. repeat split. intros Hin.
  apply list_elem_of_singleton in Hin. discriminate Hin.
Qed.

(** Three pools answer; the first two, one of them a production ledger,
    without self-certification: the third one's record is returned. *)
Lemma getPoolForDid_prefers_self_certified_witness :
  (@getPoolForDid (Demo.scripted Runs.selfCertifiedOnThird) Runs.threePools
     (Demo.context Runs.selfCertifiedOnThird) "did1"
     (Demo.world0 Runs.selfCertifiedOnThird)).2
    = Ok {| res_pool := Runs.poolC;
            res_did := {| nym_did := "did1"; nym_verkey := "~did1"; nym_role := "0" |} |}
  ∧ pools Runs.threePools !! 2 = Some Runs.poolC.
Proof.
  apply (@getPoolForDid_prefers_self_certified
           (Demo.scripted Runs.selfCertifiedOnThird) Runs.threePools
           (Demo.context Runs.selfCertifiedOnThird) "did1"
           (Demo.world0 Runs.selfCertifiedOnThird) 2
           (Runs.found Runs.poolC "did1" "~did1")).
  - vm_compute. reflexivity.
  - split; [vm_compute; reflexivity|]. split; [vm_compute; reflexivity|].
    intros j v' Hj Hl. destruct j as [|[|j]]; [| |lia];
      vm_compute in Hl; injection Hl as <-; vm_compute; reflexivity.
Defined.

(** Two pools answer without self-certification, the second one a
    production ledger: the second one's record is returned. *)
Lemma getPoolForDid_prefers_production_witness :
  (@getPoolForDid (Demo.scripted Runs.knownEverywhere) Demo.service
     (Demo.context Runs.knownEverywhere) "did1"
     (Demo.world0 Runs.knownEverywhere)).2
    = Ok {| res_pool := Demo.poolB;
            res_did := {| nym_did := "did1"; nym_verkey := "verkey"; nym_role := "0" |} |}
  ∧ pools Demo.service !! 1 = Some Demo.poolB.
Proof.
  apply (@getPoolForDid_prefers_production
           (Demo.scripted Runs.knownEverywhere) Demo.service
           (Demo.context Runs.knownEverywhere) "did1"
           (Demo.world0 Runs.knownEverywhere) 1
           (Runs.found Demo.poolB "did1" "verkey")).
  - vm_compute. reflexivity.
  - intros j v' Hl. destruct j as [|[|j]]; vm_compute in Hl;
      [injection Hl as <-; vm_compute; reflexivity..|discriminate Hl].
  - left. split; [vm_compute; reflexivity|]. split; [vm_compute; reflexivity|].
    intros j v' Hj Hl. destruct j as [|j]; [|lia].
    vm_compute in Hl. injection Hl as <-. vm_compute. reflexivity.
Defined.

(** One pool reports not found, the other times out: the failure wraps the
    time-out. *)
Lemma getPoolForDid_no_success_witness :
  ∃ message,
    (@getPoolForDid (Demo.scripted Runs.notFoundThenTimeout) Demo.service
       (Demo.context Runs.notFoundThenTimeout) "did1"
       (Demo.world0 Runs.notFoundThenTimeout)).2
      = Throw (IndySdkPoolError message (Some (IndySdkError Demo.timeout))).
Proof.
  refine (proj2 (@getPoolForDid_no_success
                   (Demo.scripted Runs.notFoundThenTimeout) Demo.service
                   (Demo.context Runs.notFoundThenTimeout) "did1"
                   (Demo.world0 Runs.notFoundThenTimeout) _ _ _)
            1 (IndySdkError Demo.timeout) _ _ _).
  - discriminate.
  - vm_compute. reflexivity.
  - intros i o Hl. destruct i as [|[|i]]; vm_compute in Hl;
      [injection Hl as <-; eexists; reflexivity..|discriminate Hl].
  - vm_compute. reflexivity.
  - reflexivity.
  - intros j e' Hj Hl. destruct j as [|j]; [|lia].
    vm_compute in Hl. injection Hl as <-. reflexivity.
Defined.

(** The cache names the second pool, which is configured: the cached record
    is returned with it, and the cache read is the only event. *)
Lemma getPoolForDid_cache_witness :
  ∃ pool,
    List.find (λ p, bool_decide (pool_id p = "B")) (pools Demo.service) = Some pool ∧
    pool ∈ pools Demo.service ∧ pool_id pool = "B" ∧
    (@getPoolForDid (Demo.scripted Demo.quiet) Demo.service (Demo.context Demo.quiet)
       "did1" (Runs.worldWithCache Demo.quiet Runs.cachedOnB)).2
      = Ok {| res_pool := pool; res_did := nymResponse Runs.cachedOnB |} ∧
    trace (@getPoolForDid (Demo.scripted Demo.quiet) Demo.service
             (Demo.context Demo.quiet) "did1"
             (Runs.worldWithCache Demo.quiet Runs.cachedOnB)).1
      = [] ++ [EvCacheGet (cacheKey "did1")] ∧
    env (@getPoolForDid (Demo.scripted Demo.quiet) Demo.service
           (Demo.context Demo.quiet) "did1"
           (Runs.worldWithCache Demo.quiet Runs.cachedOnB)).1 = 0%Z ∧
    cache (@getPoolForDid (Demo.scripted Demo.quiet) Demo.service
             (Demo.context Demo.quiet) "did1"
             (Runs.worldWithCache Demo.quiet Runs.cachedOnB)).1
      = {[ cacheKey "did1" := Runs.cachedOnB ]}.
Proof.
  refine (proj1 (@getPoolForDid_cache (Demo.scripted Demo.quiet) Demo.service
                   (Demo.context Demo.quiet) "did1"
                   (Runs.worldWithCache Demo.quiet Runs.cachedOnB)
                   Runs.cachedOnB _) _).
  - vm_compute. reflexivity.
  - exists Demo.poolB. split; [|reflexivity].
    apply elem_of_cons. right. apply elem_of_cons. left. reflexivity.
Defined.

(** C6 on the code.  The pool enforces version 1.0 of an agreement whose only
    acceptance mechanism is [wallet_agreement]; the caller is configured for
    version 1.0 and a mechanism named [toString].  That name is not among
    the pool's mechanisms, yet [key in aml] finds it on the prototype of the
    object: no mismatch is raised, the acceptance is appended, and the
    request is signed and submitted. *)
Lemma submitWriteRequest_accepts_inherited_property_name :
  let sc := Runs.withAgreement in
  let run := @submitWriteRequest (Demo.scripted sc) (Demo.context sc)
               Runs.poolToString "request" "did1" (Demo.world0 sc) in
  (@getTransactionAuthorAgreement (Demo.scripted sc) Runs.poolToString
     (Demo.world0 sc)).2 = Ok (Some Runs.agreementSnapshot) ∧
  (aml <$> acceptanceMechanisms Runs.agreementSnapshot)
    = Some [("wallet_agreement", "Accepted in the wallet")] ∧
  transactionAuthorAgreement (config Runs.poolToString)
    = Some {| taa_version := "1.0"; taa_acceptanceMechanism := "toString" |} ∧
  ("toString" ∉ Object_keys [("wallet_agreement", "Accepted in the wallet")]) ∧
  run.2 = Ok "written: request taa=toString@1.0 signed" ∧
  taaAppends (trace run.1) = ["request"] ∧
  signedRequests (trace run.1) = ["request taa=toString@1.0"] ∧
  writeSubmissions (trace run.1)
    = [(Runs.poolToString, "request taa=toString@1.0 signed")].
Proof.
  vm_compute. repeat split. intros Hin.
  apply list_elem_of_singleton in Hin. discriminate Hin.
Qed.

(** A caller configured for version 0.9 against the same agreement: the
    write fails with the mismatch error, and the trace holds the two read
    queries of the fetch and nothing else. *)
Lemma submitWriteRequest_taa_mismatch_example :
  let sc := Runs.withAgreement in
  let run := @submitWriteRequest (Demo.scripted sc) (Demo.context sc)
               Runs.poolOldVersion "request" "did1" (Demo.world0 sc) in
  (∃ mechanisms,
     acceptanceMechanisms Runs.agreementSnapshot = Some mechanisms ∧
     run.2 = Throw (IndySdkPoolError
                      (@mismatchMessage (Demo.scripted sc)
                         {| taa_version := "0.9";
                            taa_acceptanceMechanism := "wallet_agreement" |}
                         Runs.agreementSnapshot mechanisms) None)) ∧
  signedRequests (trace run.1) = [] ∧
  writeSubmissions (trace run.1) = [] ∧
  trace run.1 = [EvSubmitRead Runs.poolOldVersion "GET_TXN_AUTHOR_AGREEMENT";
                 EvSubmitRead Runs.poolOldVersion "GET_ACCEPTANCE_MECHANISMS"].
Proof.
  split; [|vm_compute; repeat split].
  eexists. split; [reflexivity|].
  erewrite (@submitWriteRequest_taa_mismatch (Demo.scripted Runs.withAgreement));
    [reflexivity| |reflexivity|reflexivity|].
  - vm_compute. reflexivity.
  - apply taaMismatch_version. discriminate.
Qed.

(** A first write against a pool whose agreement is not yet fetched sends
    the two read queries and records that the ledger has none; two later
    writes keep that record and send the pool no read query. *)
Lemma taa_snapshot_fetched_once_witness :
  let first := @submitWriteRequest (Demo.scripted Demo.quiet)
                 (Demo.context Demo.quiet) Demo.poolA "first" "did1"
                 (Demo.world0 Demo.quiet) in
  let later := @submitWrites (Demo.scripted Demo.quiet)
                 [Runs.writeTo Demo.quiet Demo.poolA "second";
                  Runs.writeTo Demo.quiet Demo.poolA "third"] first.1 in
  (∃ evs,
     trace first.1 = [] ++ evs ∧
     readQueries evs = [(Demo.poolA, "GET_TXN_AUTHOR_AGREEMENT");
                        (Demo.poolA, "GET_ACCEPTANCE_MECHANISMS")] ∧
     authorAgreementOf first.1 !! pool_ref Demo.poolA = Some None) ∧
  authorAgreementOf later !! pool_ref Demo.poolA = Some None ∧
  ∃ evs,
    trace later = trace first.1 ++ evs ∧
    ∀ q req, (q, req) ∈ readQueries evs → pool_ref q ≠ pool_ref Demo.poolA.
Proof.
  cbv zeta. split.
  - destruct (proj1 (proj2 (@taa_snapshot_fetched_once (Demo.scripted Demo.quiet)
                              Demo.poolA (Demo.world0 Demo.quiet)))
                eq_refl (Demo.context Demo.quiet) "first" "did1"
                (@getTransactionAuthorAgreement (Demo.scripted Demo.quiet)
                   Demo.poolA (Demo.world0 Demo.quiet)).1
                None eq_refl)
      as (taaRequest & amRequest & e1 & taaResponse & amResponse & evs
          & Hb1 & Hb2 & _ & _ & _ & _ & Ht & Hr & Hm).
    injection Hb1 as <-. injection Hb2 as <-.
    exists evs. split; [exact Ht|]. split; [exact Hr|exact Hm].
  - apply (proj1 (@taa_snapshot_fetched_once (Demo.scripted Demo.quiet) Demo.poolA
                    (@submitWriteRequest (Demo.scripted Demo.quiet)
                       (Demo.context Demo.quiet) Demo.poolA "first" "did1"
                       (Demo.world0 Demo.quiet)).1)).
    vm_compute. reflexivity.
Defined.

(** C7 as stated fails: the ledger answers the query for the agreement and
    fails the query for the acceptance mechanisms.  Each of three writes
    against the pool fetches anew: six read queries are sent, and the
    agreement is still not memoised. *)
Lemma taa_fetch_repeated_after_failure :
  let sc := Runs.mechanismsUnreachable in
  let after := @submitWrites (Demo.scripted sc)
                 [Runs.writeTo sc Demo.poolA "first";
                  Runs.writeTo sc Demo.poolA "second";
                  Runs.writeTo sc Demo.poolA "third"] (Demo.world0 sc) in
  readQueries (trace after)
    = [(Demo.poolA, "GET_TXN_AUTHOR_AGREEMENT");
       (Demo.poolA, "GET_ACCEPTANCE_MECHANISMS");
       (Demo.poolA, "GET_TXN_AUTHOR_AGREEMENT");
       (Demo.poolA, "GET_ACCEPTANCE_MECHANISMS");
       (Demo.poolA, "GET_TXN_AUTHOR_AGREEMENT");
       (Demo.poolA, "GET_ACCEPTANCE_MECHANISMS")] ∧
  authorAgreementOf after !! pool_ref Demo.poolA = None ∧
  signedRequests (trace after) = [] ∧
  writeSubmissions (trace after) = [].
Proof. vm_compute. repeat split. Qed.

(** A write against a pool without agreement: the request is signed as it
    came, and the signed request is what the pool receives. *)
Lemma submitWriteRequest_without_taa_witness :
  ∃ evs,
    trace (@submitWriteRequest (Demo.scripted Demo.quiet) (Demo.context Demo.quiet)
             Demo.poolA "request" "did1" (Demo.world0 Demo.quiet)).1
      = trace (@getTransactionAuthorAgreement (Demo.scripted Demo.quiet) Demo.poolA
                 (Demo.world0 Demo.quiet)).1 ++ evs ∧
    evs = [EvSignRequest 7 "did1" "request"; EvSubmitWrite Demo.poolA "request signed"] ∧
    (@submitWriteRequest (Demo.scripted Demo.quiet) (Demo.context Demo.quiet)
       Demo.poolA "request" "did1" (Demo.world0 Demo.quiet)).2
      = Ok "written: request signed".
Proof.
  destruct (@submitWriteRequest_without_taa (Demo.scripted Demo.quiet)
              (Demo.context Demo.quiet) Demo.poolA "request" "did1"
              (Demo.world0 Demo.quiet)
              (@getTransactionAuthorAgreement (Demo.scripted Demo.quiet) Demo.poolA
                 (Demo.world0 Demo.quiet)).1)
    as (evs & Ht & _ & _ & _ & Hsigned).
  - vm_compute. reflexivity.
  - exists evs. split; [exact Ht|].
    apply (Hsigned 7 3%Z "request signed"); vm_compute; reflexivity.
Defined.

(** C8 as stated fails: the pool has no agreement, and the request the pool
    receives is the signed request, not the caller's request. *)
Lemma submitWriteRequest_submits_signed_request :
  let run := @submitWriteRequest (Demo.scripted Demo.quiet) (Demo.context Demo.quiet)
               Demo.poolA "request" "did1" (Demo.world0 Demo.quiet) in
  (@getTransactionAuthorAgreement (Demo.scripted Demo.quiet) Demo.poolA
     (Demo.world0 Demo.quiet)).2 = Ok None ∧
  signedRequests (trace run.1) = ["request"] ∧
  writeSubmissions (trace run.1) = [(Demo.poolA, "request signed")] ∧
  "request signed" ≠ "request".
Proof. vm_compute. repeat split. discriminate. Qed.

(** A resolution of one DID leaves the entry of another DID as it was. *)
Lemma cache_written_only_by_fresh_resolution_witness :
  cache (@getPoolForDid (Demo.scripted Runs.knownEverywhere) Demo.service
           (Demo.context Runs.knownEverywhere) "did2"
           (Runs.worldWithCache Runs.knownEverywhere Runs.cachedOnB)).1
    !! cacheKey "did1"
  = cache (Runs.worldWithCache Runs.knownEverywhere Runs.cachedOnB) !! cacheKey "did1".
Proof.
  apply (proj1 (proj2 (@cache_written_only_by_fresh_resolution
                         (Demo.scripted Runs.knownEverywhere) Demo.service
                         (Demo.context Runs.knownEverywhere) "did2"
                         (Runs.worldWithCache Runs.knownEverywhere Runs.cachedOnB)))).
  discriminate.
Defined.



(** * Concrete runs of the further properties *)

Lemma getPoolForDid_succeeds_when_a_pool_answers_witness :
  ∃ j v',
    @queryOutcomes (Demo.scripted Runs.knownEverywhere) Demo.service "did1"
      (Demo.world0 Runs.knownEverywhere) !! j
      = Some (Fulfilled {| value := v' |}) ∧
    pools Demo.service !! j = Some (pdr_pool v') ∧
    (@getPoolForDid (Demo.scripted Runs.knownEverywhere) Demo.service
       (Demo.context Runs.knownEverywhere) "did1"
       (Demo.world0 Runs.knownEverywhere)).2
      = Ok {| res_pool := pdr_pool v'; res_did := pdr_did v' |}.
Proof.
  apply (@getPoolForDid_succeeds_when_a_pool_answers
           (Demo.scripted Runs.knownEverywhere) Demo.service
           (Demo.context Runs.knownEverywhere) "did1"
           (Demo.world0 Runs.knownEverywhere) 0
           (Runs.found Demo.poolA "did1" "verkey")).
  - vm_compute. reflexivity.
  - vm_compute. reflexivity.
Defined.

Lemma getPoolForDid_returns_configured_pool_witness :
  Demo.poolB ∈ pools Demo.service ∧
  ∃ cached,
    cache (@getPoolForDid (Demo.scripted Runs.knownEverywhere) Demo.service
             (Demo.context Runs.knownEverywhere) "did1"
             (Demo.world0 Runs.knownEverywhere)).1 !! cacheKey "did1"
      = Some cached ∧
    nymResponse cached
      = {| nym_did := "did1"; nym_verkey := "verkey"; nym_role := "0" |} ∧
    poolId cached = "B".
Proof.
  apply (@getPoolForDid_returns_configured_pool
           (Demo.scripted Runs.knownEverywhere) Demo.service
           (Demo.context Runs.knownEverywhere) "did1"
           (Demo.world0 Runs.knownEverywhere)
           {| res_pool := Demo.poolB;
              res_did := {| nym_did := "did1"; nym_verkey := "verkey";
                            nym_role := "0" |} |}).
  vm_compute. reflexivity.
Defined.

Lemma getPoolForDid_failures_witness :
  (pools Demo.service = [] ∧
   IndySdkPoolError "Unknown error retrieving did 'did1' from '1' of '2' ledgers"
     (Some (IndySdkError Demo.timeout))
     = IndySdkPoolNotConfiguredError notConfiguredMessage)
  ∨ (pools Demo.service ≠ [] ∧
     @cacheHit (Demo.scripted Runs.notFoundThenTimeout) Demo.service "did1"
       (Demo.world0 Runs.notFoundThenTimeout) = None ∧
     allRejected
       (@queryOutcomes (Demo.scripted Runs.notFoundThenTimeout) Demo.service "did1"
          (Demo.world0 Runs.notFoundThenTimeout)) ∧
     (IndySdkPoolError "Unknown error retrieving did 'did1' from '1' of '2' ledgers"
        (Some (IndySdkError Demo.timeout))
        = IndySdkPoolNotFoundError (didNotFoundMessage "did1" (length (pools Demo.service)))
      ∨ ∃ message i cause,
          IndySdkPoolError "Unknown error retrieving did 'did1' from '1' of '2' ledgers"
            (Some (IndySdkError Demo.timeout))
            = IndySdkPoolError message (Some cause) ∧
          @queryOutcomes (Demo.scripted Runs.notFoundThenTimeout) Demo.service "did1"
            (Demo.world0 Runs.notFoundThenTimeout) !! i
            = Some (Rejected {| reason := cause |}) ∧
          instanceof_IndySdkPoolNotFoundError cause = false)).
Proof.
  apply (@getPoolForDid_failures (Demo.scripted Runs.notFoundThenTimeout)
           Demo.service (Demo.context Runs.notFoundThenTimeout) "did1"
           (Demo.world0 Runs.notFoundThenTimeout)).
  vm_compute. reflexivity.
Defined.

Lemma getPoolForDid_again_is_a_cache_hit_witness :
  let first := @getPoolForDid (Demo.scripted Runs.knownEverywhere) Demo.service
                 (Demo.context Runs.knownEverywhere) "did1"
                 (Demo.world0 Runs.knownEverywhere) in
  let second := @getPoolForDid (Demo.scripted Runs.knownEverywhere) Demo.service
                  (Demo.context Runs.knownEverywhere) "did1" first.1 in
  second.2 = Ok {| res_pool := Demo.poolB;
                   res_did := {| nym_did := "did1"; nym_verkey := "verkey";
                                 nym_role := "0" |} |} ∧
  trace second.1 = trace first.1 ++ [EvCacheGet (cacheKey "did1")] ∧
  env second.1 = env first.1 ∧
  cache second.1 = cache first.1.
Proof.
  apply (@getPoolForDid_again_is_a_cache_hit
           (Demo.scripted Runs.knownEverywhere) Demo.service
           (Demo.context Runs.knownEverywhere) (Demo.context Runs.knownEverywhere)
           "did1" (Demo.world0 Runs.knownEverywhere)).
  - vm_compute. repeat constructor; intros Hin.
    + apply list_elem_of_singleton in Hin. discriminate Hin.
    + by apply elem_of_nil in Hin.
  - vm_compute. reflexivity.
Defined.

Lemma getPoolForDid_single_answer_witness :
  (@getPoolForDid (Demo.scripted Runs.onlyOnSecond) Demo.service
     (Demo.context Runs.onlyOnSecond) "did1" (Demo.world0 Runs.onlyOnSecond)).2
    = Ok {| res_pool := Demo.poolB;
            res_did := {| nym_did := "did1"; nym_verkey := "verkey"; nym_role := "0" |} |} ∧
  pools Demo.service !! 1 = Some Demo.poolB ∧
  cache (@getPoolForDid (Demo.scripted Runs.onlyOnSecond) Demo.service
           (Demo.context Runs.onlyOnSecond) "did1"
           (Demo.world0 Runs.onlyOnSecond)).1 !! cacheKey "did1"
    = Some {| nymResponse := {| nym_did := "did1"; nym_verkey := "verkey";
                                nym_role := "0" |};
              poolId := "B" |}.
Proof.
  apply (@getPoolForDid_single_answer (Demo.scripted Runs.onlyOnSecond) Demo.service
           (Demo.context Runs.onlyOnSecond) "did1" (Demo.world0 Runs.onlyOnSecond)
           1 (Runs.found Demo.poolB "did1" "verkey")).
  - vm_compute. reflexivity.
  - vm_compute. reflexivity.
  - intros j o Hj Hl. destruct j as [|[|j]]; [|done|discriminate Hl].
    vm_compute in Hl. injection Hl as <-. eexists. reflexivity.
Defined.

Lemma submitWriteRequest_needs_taa_configuration_witness :
  @submitWriteRequest (Demo.scripted Runs.withAgreement)
    (Demo.context Runs.withAgreement) Demo.poolA "request" "did1"
    (Demo.world0 Runs.withAgreement)
  = ((@getTransactionAuthorAgreement (Demo.scripted Runs.withAgreement) Demo.poolA
        (Demo.world0 Runs.withAgreement)).1,
     Throw (IndySdkPoolError
              (@specifyTaaMessage (Demo.scripted Runs.withAgreement)
                 Runs.agreementSnapshot) None)) ∧
  ∃ evs,
    trace (@getTransactionAuthorAgreement (Demo.scripted Runs.withAgreement)
             Demo.poolA (Demo.world0 Runs.withAgreement)).1 = [] ++ evs ∧
    signedRequests evs = [] ∧ writeSubmissions evs = [] ∧ taaAppends evs = [].
Proof.
  apply (@submitWriteRequest_needs_taa_configuration
           (Demo.scripted Runs.withAgreement) (Demo.context Runs.withAgreement)
           Demo.poolA "request" "did1" (Demo.world0 Runs.withAgreement)).
  - vm_compute. reflexivity.
  - reflexivity.
Defined.

Lemma submitWriteRequest_fetch_failure_witness :
  let fetch := @getTransactionAuthorAgreement
                 (Demo.scripted Runs.agreementUnreachable) Demo.poolA
                 (Demo.world0 Runs.agreementUnreachable) in
  @submitWriteRequest (Demo.scripted Runs.agreementUnreachable)
    (Demo.context Runs.agreementUnreachable) Demo.poolA "request" "did1"
    (Demo.world0 Runs.agreementUnreachable)
  = (fetch.1, Throw (IndySdkError Demo.timeout)) ∧
  isIndyError (IndySdkError Demo.timeout) None = false ∧
  authorAgreementOf fetch.1 !! pool_ref Demo.poolA = None ∧
  authorAgreementOf fetch.1 = ∅ ∧
  ∃ evs, trace fetch.1 = [] ++ evs ∧
         signedRequests evs = [] ∧ writeSubmissions evs = [] ∧ taaAppends evs = [].
Proof.
  apply (@submitWriteRequest_fetch_failure
           (Demo.scripted Runs.agreementUnreachable)
           (Demo.context Runs.agreementUnreachable) Demo.poolA "request" "did1"
           (Demo.world0 Runs.agreementUnreachable)).
  vm_compute. reflexivity.
Defined.

Lemma submitWriteRequest_appends_acceptance_witness :
  let sc := Runs.withAgreement in
  let w1 := (@getTransactionAuthorAgreement (Demo.scripted sc) Runs.poolAccepting
               (Demo.world0 sc)).1 in
  ∃ time evs,
    (1000 * time ≤ 2 < 1000 * time + 1000)%Z ∧
    trace (@submitWriteRequest (Demo.scripted sc) (Demo.context sc)
             Runs.poolAccepting "request" "did1" (Demo.world0 sc)).1
      = trace w1 ++
        EvAppendTaa "request" "terms" "1.0" "digest-1" "wallet_agreement" time :: evs ∧
    taaAppends evs = [] ∧
    (∀ r, r ∈ signedRequests evs →
       @indySdk_appendTxnAuthorAgreementAcceptanceToRequest (Demo.scripted sc)
         "request" "terms" "1.0" "digest-1" "wallet_agreement" time = Ok r) ∧
    (∀ e, @indySdk_appendTxnAuthorAgreementAcceptanceToRequest (Demo.scripted sc)
            "request" "terms" "1.0" "digest-1" "wallet_agreement" time = Throw e →
          evs = [] ∧
          (@submitWriteRequest (Demo.scripted sc) (Demo.context sc)
             Runs.poolAccepting "request" "did1" (Demo.world0 sc)).2
            = Throw (translateError e)).
Proof.
  apply (@submitWriteRequest_appends_acceptance
           (Demo.scripted Runs.withAgreement) (Demo.context Runs.withAgreement)
           Runs.poolAccepting "request" "did1" (Demo.world0 Runs.withAgreement)
           (@getTransactionAuthorAgreement (Demo.scripted Runs.withAgreement)
              Runs.poolAccepting (Demo.world0 Runs.withAgreement)).1
           Runs.agreementSnapshot (asAcceptanceMechanisms Runs.mechanismsData)
           {| taa_version := "1.0"; taa_acceptanceMechanism := "wallet_agreement" |}).
  - vm_compute. reflexivity.
  - reflexivity.
  - reflexivity.
  - reflexivity.
  - apply elem_of_cons. left. reflexivity.
Defined.

Lemma connectToPools_handles_in_order_witness :
  Forall2 (λ pool handle,
             ∃ e, (@pool_connect (Demo.scripted Demo.quiet) pool e).2 = Ok handle)
          (pools Demo.service) [1; 1].
Proof.
  apply (@connectToPools_handles_in_order (Demo.scripted Demo.quiet) Demo.service
           (Demo.world0 Demo.quiet)).
  vm_compute. reflexivity.
Defined.

Lemma getPoolForNamespace_returns_configured_pool_witness :
  Demo.poolB ∈ pools Runs.threePools ∧
  (js_not_string (Some "b") = true → pools Runs.threePools !! 0 = Some Demo.poolB) ∧
  (js_not_string (Some "b") = false → didIndyNamespace Demo.poolB = Some "b").
Proof.
  apply getPoolForNamespace_returns_configured_pool. reflexivity.
Defined.

Lemma setPools_then_getPoolForNamespace_witness :
  getPoolForNamespace
    (setPools 10 ([config Demo.poolA] ++ config Demo.poolB :: [config Runs.poolC]))
    (Some "b")
  = Ok {| pool_ref := 10 + 1; config := config Demo.poolB |}.
Proof.
  apply (setPools_then_getPoolForNamespace 10 [config Demo.poolA]
           (config Demo.poolB) [config Runs.poolC] "b").
  - discriminate.
  - reflexivity.
  - intros other Hin. apply list_elem_of_singleton in Hin. rewrite Hin. discriminate.
Defined.

Lemma getPoolForDid_not_found_anywhere_witness :
  (@getPoolForDid (Demo.scripted Demo.quiet) Demo.service (Demo.context Demo.quiet)
     "did1" (Demo.world0 Demo.quiet)).2
    = Throw (IndySdkPoolNotFoundError (didNotFoundMessage "did1" 2)) ∧
  cache (@getPoolForDid (Demo.scripted Demo.quiet) Demo.service
           (Demo.context Demo.quiet) "did1" (Demo.world0 Demo.quiet)).1 = ∅ ∧
  readQueries (trace (@getPoolForDid (Demo.scripted Demo.quiet) Demo.service
                        (Demo.context Demo.quiet) "did1" (Demo.world0 Demo.quiet)).1)
    = [] ++ map (λ pool, (pool, "GET_NYM did1")) (pools Demo.service).
Proof.
  apply (@getPoolForDid_not_found_anywhere (Demo.scripted Demo.quiet) Demo.service
           (Demo.context Demo.quiet) "did1" (Demo.world0 Demo.quiet) "GET_NYM did1").
  - discriminate.
  - vm_compute. reflexivity.
  - reflexivity.
  - intros pool _ e. exists (e + 1)%Z, "309". reflexivity.
Defined.
